(** * fix_file.py: the text fixer of the book repository

    The script reads one file as UTF-8 text, performs four literal
    [str.replace] substitutions on its content, writes the result back to
    the same path and prints a confirmation line.

    Python strings are sequences of Unicode code points, so a [str] is a
    list of code points here; the file itself is a list of bytes. *)

From Stdlib Require Import NArith Ascii String Strings.Byte.
From Stdlib Require Import ZifyBool.
From stdpp Require Import gmap strings list fin_maps.

Local Open Scope N_scope.

(** ** Text *)

Abbreviation str := (list N).

(** A Python literal made of ASCII characters only. *)
Definition lit (s : string) : str :=
  map N_of_ascii (list_ascii_of_string s).

(** [s.startswith(p)] *)
Fixpoint startswith (p s : str) : bool :=
  match p, s with
  | [], _ => true
  | _ :: _, [] => false
  | a :: p', b :: s' => (a =? b) && startswith p' s'
  end.

(** [p in s] *)
Fixpoint contains (p s : str) : bool :=
  match s with
  | [] => startswith p []
  | _ :: t => startswith p s || contains p t
  end.

(** ** [str.replace]

    [s.replace(old, new)] scans [s] from the left; wherever [old] starts
    it emits [new] and resumes right after that occurrence, otherwise it
    copies one character. [skip] counts the characters of a matched
    occurrence that are still to be passed over. *)
Fixpoint replace_from (old new : str) (skip : nat) (s : str) : str :=
  match s with
  | [] => []
  | c :: t =>
      match skip with
      | S k => replace_from old new k t
      | O =>
          if startswith old s
          then new ++ replace_from old new (length old - 1) t
          else c :: replace_from old new 0 t
      end
  end.

(** With an empty [old], Python inserts [new] before every character and
    at the end. *)
Definition replace (old new s : str) : str :=
  match old with
  | [] => new ++ flat_map (λ c, c :: new) s
  | _ :: _ => replace_from old new 0 s
  end.

(** ** The substitutions of the script (lines 7 to 12) *)

Definition NBSP : str := [160].
Definition SPACE : str := lit " ".

Record rule := Rule { search : str; replacement : str }.

Definition rule_nbsp : rule := Rule NBSP SPACE.
Definition rule_obervations : rule :=
  Rule (lit "obervations") (lit "observations").
Definition rule_bellow : rule :=
  Rule (lit "The code bellow") (lit "The code below").
Definition rule_strenght : rule :=
  Rule (lit "strenght.html") (lit "strength.html").

Definition apply_rule (r : rule) (s : str) : str :=
  replace (search r) (replacement r) s.

(** The rebinding of [content], line by line. *)
Definition fix_content (content : str) : str :=
  let content := replace NBSP SPACE content in
  let content := replace (lit "obervations") (lit "observations") content in
  let content := replace (lit "The code bellow") (lit "The code below") content in
  let content := replace (lit "strenght.html") (lit "strength.html") content in
  content.

(** The same pipeline for an arbitrary order of rules: the first rule of
    the list is applied first. *)
Definition apply_rules (rs : list rule) (s : str) : str :=
  fold_left (λ acc r, apply_rule r acc) rs s.

Definition rules : list rule :=
  [rule_nbsp; rule_obervations; rule_bellow; rule_strenght].

#[global] Instance rule_eq_dec : EqDecision rule.
Proof. solve_decision. Defined.

(** [applied_before a b rs]: [a] is in [rs] and [b] comes later. *)
Fixpoint applied_before (a b : rule) (rs : list rule) : bool :=
  match rs with
  | [] => false
  | r :: rs' =>
      if decide (r = a) then bool_decide (b ∈ rs') else applied_before a b rs'
  end.

(** ** The UTF-8 codec of [open(..., encoding="utf-8")]

    The strict decoder: shortest form only, no surrogates, nothing above
    U+10FFFF. *)
Definition is_continuation (b : N) : bool := N.land b 0xC0 =? 0x80.

Definition payload (b : N) : N := N.land b 0x3F.

Fixpoint utf8_decode_from (bs : list N) : option str :=
  match bs with
  | [] => Some []
  | b0 :: r0 =>
      if b0 <? 0x80 then cons b0 <$> utf8_decode_from r0
      else if N.land b0 0xE0 =? 0xC0 then
        match r0 with
        | b1 :: r1 =>
            let cp := N.lor (N.shiftl (N.land b0 0x1F) 6) (payload b1) in
            if is_continuation b1 && (0x80 <=? cp)
            then cons cp <$> utf8_decode_from r1 else None
        | _ => None
        end
      else if N.land b0 0xF0 =? 0xE0 then
        match r0 with
        | b1 :: b2 :: r2 =>
            let cp := N.lor (N.shiftl (N.land b0 0x0F) 12)
                        (N.lor (N.shiftl (payload b1) 6) (payload b2)) in
            if is_continuation b1 && is_continuation b2 && (0x800 <=? cp)
               && negb ((0xD800 <=? cp) && (cp <=? 0xDFFF))
            then cons cp <$> utf8_decode_from r2 else None
        | _ => None
        end
      else if N.land b0 0xF8 =? 0xF0 then
        match r0 with
        | b1 :: b2 :: b3 :: r3 =>
            let cp := N.lor (N.shiftl (N.land b0 0x07) 18)
                        (N.lor (N.shiftl (payload b1) 12)
                           (N.lor (N.shiftl (payload b2) 6) (payload b3))) in
            if is_continuation b1 && is_continuation b2 && is_continuation b3
               && (0x10000 <=? cp) && (cp <=? 0x10FFFF)
            then cons cp <$> utf8_decode_from r3 else None
        | _ => None
        end
      else None
  end.

Definition utf8_decode (bs : list byte) : option str :=
  utf8_decode_from (map Byte.to_N bs).

Definition utf8_encode_char (c : N) : option (list N) :=
  if c <? 0x80 then Some [c]
  else if c <? 0x800 then
    Some [N.lor 0xC0 (N.shiftr c 6); N.lor 0x80 (payload c)]
  else if c <? 0x10000 then
    if (0xD800 <=? c) && (c <=? 0xDFFF) then None
    else Some [N.lor 0xE0 (N.shiftr c 12);
               N.lor 0x80 (payload (N.shiftr c 6));
               N.lor 0x80 (payload c)]
  else if c <? 0x110000 then
    Some [N.lor 0xF0 (N.shiftr c 18);
          N.lor 0x80 (payload (N.shiftr c 12));
          N.lor 0x80 (payload (N.shiftr c 6));
          N.lor 0x80 (payload c)]
  else None.

Definition utf8_encode (s : str) : option (list byte) :=
  ns ← mapM utf8_encode_char s; mapM Byte.of_N (concat ns).

(** Text mode with the default [newline=None]: on input every "\r\n" and
    every lone "\r" reaches the program as "\n". On output "\n" becomes
    [os.linesep], which is "\n" itself on the POSIX system the hard-coded
    path belongs to. *)
Fixpoint universal_newlines (s : str) : str :=
  match s with
  | [] => []
  | c :: t =>
      if c =? 13 then
        10 :: match t with
              | c' :: t' =>
                  if c' =? 10 then universal_newlines t' else universal_newlines t
              | [] => []
              end
      else c :: universal_newlines t
  end.

(** ** The world of the script: a file system and standard output *)

(** The model is of one process on a plain file system. Each path names a
    file of its own: there are no hard or symbolic links, so nothing is said
    about what a write through one path does to another. The device does
    not fail: no [OSError] (disk full, file too large, closed output) is
    modelled, so nothing is said about a write that breaks off after the
    file has been truncated. *)
Record file := File { data : list byte; readable : bool; writable : bool }.

Record world := World { fs : gmap string file; stdout : str }.

(** The exceptions of the statements of the script, apart from [OSError]. *)
Inductive exn :=
| FileNotFoundError
| PermissionError
| UnicodeDecodeError
| UnicodeEncodeError.

(** A statement either raises or returns, and leaves a world behind. *)
Definition io (A : Type) : Type := world → (exn + A) * world.

#[global] Instance io_ret : MRet io := λ A a w, (inr a, w).

#[global] Instance io_bind : MBind io := λ A B k m w,
  match m w with
  | (inl e, w') => (inl e, w')
  | (inr a, w') => k a w'
  end.

(** An open file object: the path it was opened on. *)
Definition handle := string.

(** [open(path, "r", encoding="utf-8")] *)
Definition open_read (path : string) : io handle := λ w,
  match fs w !! path with
  | None => (inl FileNotFoundError, w)
  | Some f => if readable f then (inr path, w) else (inl PermissionError, w)
  end.

(** [f.read()] *)
Definition fread (h : handle) : io str := λ w,
  match fs w !! h with
  | None => (inl FileNotFoundError, w)
  | Some f =>
      match utf8_decode (data f) with
      | None => (inl UnicodeDecodeError, w)
      | Some s => (inr (universal_newlines s), w)
      end
  end.

(** [open(path, "w", encoding="utf-8")]: creates the file or truncates it. *)
Definition open_write (path : string) : io handle := λ w,
  match fs w !! path with
  | None => (inr path, World (<[path := File [] true true]> (fs w)) (stdout w))
  | Some f =>
      if writable f
      then (inr path,
            World (<[path := File [] (readable f) true]> (fs w)) (stdout w))
      else (inl PermissionError, w)
  end.

(** [f.write(content)] on a file just opened for writing, and the flush
    when the [with] block closes it. The text is encoded first; writing the
    bytes is taken to succeed (see the note on the model above). *)
Definition fwrite (h : handle) (content : str) : io unit := λ w,
  match utf8_encode content with
  | None => (inl UnicodeEncodeError, w)
  | Some bs =>
      match fs w !! h with
      | None => (inl FileNotFoundError, w)
      | Some f =>
          (inr (),
           World (<[h := File (data f ++ bs) (readable f) (writable f)]> (fs w))
             (stdout w))
      end
  end.

(** [print(line)] *)
Definition print (line : str) : io unit := λ w,
  (inr (), World (fs w) (stdout w ++ line ++ [10])).

Definition PATH : string := "/home/ignacio82/projects/book/strength.qmd".

Definition CONFIRMATION : str := lit "File updated successfully.".

(** fix_file.py, statement by statement. *)
Definition script : io unit :=
  f ← open_read PATH;
  content ← fread f;
  let content := fix_content content in
  f ← open_write PATH;
  fwrite f content;;
  print CONFIRMATION.

(** The interpreter turns an uncaught exception into exit status 1. *)
Definition exit_status {A} (r : exn + A) : N :=
  match r with inl _ => 1 | inr _ => 0 end.

Definition run (w : world) : N * world :=
  let (r, w') := script w in (exit_status r, w').

(** ** UTF-8, as its definition has it

    [utf8_char c l]: the bytes [l] are the UTF-8 form of the scalar value
    [c]: one byte below U+0080, two below U+0800, three below U+10000
    (surrogates have no form), four up to U+10FFFF, always the shortest. *)
Inductive utf8_char : N → list N → Prop :=
| utf8_one c :
    c < 0x80 → utf8_char c [c]
| utf8_two x y :
    x < 32 → y < 64 → 0x80 ≤ x * 64 + y →
    utf8_char (x * 64 + y) [0xC0 + x; 0x80 + y]
| utf8_three x y z :
    x < 16 → y < 64 → z < 64 → 0x800 ≤ x * 4096 + y * 64 + z →
    ¬ (0xD800 ≤ x * 4096 + y * 64 + z ≤ 0xDFFF) →
    utf8_char (x * 4096 + y * 64 + z) [0xE0 + x; 0x80 + y; 0x80 + z]
| utf8_four v x y z :
    v < 8 → x < 64 → y < 64 → z < 64 →
    0x10000 ≤ v * 262144 + x * 4096 + y * 64 + z ≤ 0x10FFFF →
    utf8_char (v * 262144 + x * 4096 + y * 64 + z)
      [0xF0 + v; 0x80 + x; 0x80 + y; 0x80 + z].

(** The tests the decoder makes on a byte, as ranges. *)
Definition byte_tests_ok (b : N) : bool :=
  eqb (N.land b 0xE0 =? 0xC0) ((0xC0 <=? b) && (b <? 0xE0))
  && eqb (N.land b 0xF0 =? 0xE0) ((0xE0 <=? b) && (b <? 0xF0))
  && eqb (N.land b 0xF8 =? 0xF0) ((0xF0 <=? b) && (b <? 0xF8))
  && eqb (is_continuation b) ((0x80 <=? b) && (b <? 0xC0)).

(** [all_bits k P]: [P] holds of every number of at most [k] bits. *)
Fixpoint all_bits (k : nat) (P : N → bool) : bool :=
  match k with
  | O => P 0
  | S k =>
      all_bits k (λ n, P (N.double n)) && all_bits k (λ n, P (N.succ_double n))
  end.

(** A Unicode scalar value: what a decoded text consists of. *)
Definition valid_char (c : N) : bool :=
  (c <? 0x110000) && negb ((0xD800 <=? c) && (c <=? 0xDFFF)).

(** ** Sample inputs

    A text on which the order of the nbsp rule and the bellow rule shows. *)
Definition the_nbsp_code_bellow : str :=
  lit "The" ++ NBSP ++ lit "code bellow".

(** The target file holds the bytes of "a\u00a0b". *)
Definition sample_world : world :=
  World {[PATH := File [x61; xc2; xa0; x62]%byte true true]} [].

(** The target file may be read but not written. *)
Definition readonly_world : world :=
  World {[PATH := File [x61; xc2; xa0; x62]%byte true false]} (lit "$ ").

(** The target file holds "a\r\nb\r\n": nothing to fix, Windows line ends. *)
Definition crlf_world : world :=
  World {[PATH := File [x61; x0d; x0a; x62; x0d; x0a]%byte true true]} [].

(** The target file holds "x\u20ac\n": nothing to fix. *)
Definition clean_world : world :=
  World {[PATH := File [x78; xe2; x82; xac; x0a]%byte true true]} [].

(** The characters of the four search literals, and of all eight literals. *)
Definition search_chars : str :=
  NBSP ++ lit "obervations" ++ lit "The code bellow" ++ lit "strenght.html".

Definition literal_chars : str :=
  search_chars ++ SPACE ++ lit "observations" ++ lit "The code below"
  ++ lit "strength.html".

(** ** What the specification says a substitution is

    [occurs p s]: the literal [p] is a substring of [s]. *)
Definition occurs (p s : str) : Prop := ∃ u v, s = u ++ p ++ v.

(** "Scanning the entire current text and replacing every non-overlapping
    occurrence of the search literal with the replacement literal": either
    the literal does not occur and the text is left as it is, or the text
    splits at its leftmost occurrence, which is replaced, and the rest of
    the text is treated the same way. *)
Inductive replaced_every (old new : str) : str → str → Prop :=
| replaced_none s :
    ¬ occurs old s → replaced_every old new s s
| replaced_leftmost u t r :
    ¬ occurs old (u ++ removelast old) →
    replaced_every old new t r →
    replaced_every old new (u ++ old ++ t) (u ++ new ++ r).

(** The four substitutions, "each operating on the output of the previous
    step". *)
Definition four_steps (s r : str) : Prop :=
  ∃ s1 s2 s3,
    replaced_every NBSP SPACE s s1 ∧
    replaced_every (lit "obervations") (lit "observations") s1 s2 ∧
    replaced_every (lit "The code bellow") (lit "The code below") s2 s3 ∧
    replaced_every (lit "strenght.html") (lit "strength.html") s3 r.

(** ** Decidable conditions on literals

    [clash p q]: [p] and [q] differ at a position that both have, so that
    neither can start where the other starts. *)
Fixpoint clash (p q : str) : bool :=
  match p, q with
  | a :: p', b :: q' => negb (a =? b) || clash p' q'
  | _, _ => false
  end.

(** The non-empty suffixes of a literal. *)
Fixpoint suffixes (w : str) : list str :=
  match w with
  | [] => []
  | _ :: t => w :: suffixes t
  end.

(** [no_start p w tl]: [p] starts nowhere inside [w] when [w] is followed
    by [tl], whatever comes after. *)
Definition no_start (p w tl : str) : bool :=
  forallb (λ q, clash p (q ++ tl)) (suffixes w).

(** [steady q old new]: replacing [old] by [new] cannot change whether a
    text starts with [q], nor with a suffix of [q]: each suffix either
    starts both literals or clashes with both. *)
Definition steady1 (q old new : str) : bool :=
  (startswith q old && startswith q new) || (clash q old && clash q new).

Definition steady (q old new : str) : bool :=
  forallb (λ q', steady1 q' old new) (suffixes q).

(** [vanishes r]: after rule [r] its search literal cannot be left. *)
Definition vanishes (r : rule) : bool :=
  match search r with
  | [] => false
  | _ :: o =>
      no_start (search r) (replacement r) [] && steady o (search r) (replacement r)
  end.

(** [stays_absent p r]: rule [r] cannot bring the literal [p] about. *)
Definition stays_absent (p : str) (r : rule) : bool :=
  match search r with
  | [] => false
  | _ :: _ => no_start p (replacement r) [] && steady p (search r) (replacement r)
  end.

(** [independent a b tl]: the condition under which rules [a] and [b]
    commute. The literals of [a] end in the common part [tl], the only
    place where an occurrence of [b]'s search literal may begin. *)
Definition independent (a b : rule) (core core' tl : str) : bool :=
  bool_decide (search a = core ++ tl) && bool_decide (replacement a = core' ++ tl)
  && negb (bool_decide (core = [])) && negb (bool_decide (search b = []))
  && no_start (search a) (search b) [] && no_start (search a) (replacement b) []
  && no_start (search b) core tl && no_start (search b) core' tl
  && no_start (search a) tl []
  && steady (search a) (search b) (replacement b)
  && steady (search b) (search a) (replacement a).

(** * Proofs *)

(** ** Prefixes and occurrences *)

Lemma startswith_nil_r p : startswith p [] = true → p = [].
Proof. by destruct p. Qed.

Lemma startswith_app p t : startswith p (p ++ t) = true.
Proof. induction p as [|a p IH]; simpl; [done|]. by rewrite N.eqb_refl. Qed.

Lemma startswith_split p s :
  startswith p s = true → s = p ++ drop (length p) s.
Proof.
  revert s. induction p as [|a p IH]; intros [|b s]; simpl; try done.
  intros [Hab Hp]%andb_prop. apply N.eqb_eq in Hab as ->.
  f_equal. by apply IH.
Qed.

Lemma startswith_iff p s : startswith p s = true ↔ ∃ t, s = p ++ t.
Proof.
  split.
  - intros H. eexists. by apply startswith_split.
  - intros [t ->]. apply startswith_app.
Qed.

Lemma startswith_app_l p q s :
  startswith p q = true → startswith p (q ++ s) = true.
Proof.
  intros [t ->]%startswith_iff. rewrite <- app_assoc. apply startswith_app.
Qed.

(** A literal that fits into the first part of a text starts the text iff
    it starts that part. *)
Lemma startswith_short p w s :
  (length p ≤ length w)%nat → startswith p (w ++ s) = startswith p w.
Proof.
  revert w. induction p as [|a p IH]; intros [|b w] Hl; simpl in *; try done.
  - lia.
  - rewrite IH; [done | lia].
Qed.

Lemma contains_startswith p s : startswith p s = true → contains p s = true.
Proof. intros H. destruct s; simpl; [done|]. by rewrite H. Qed.

Lemma contains_iff p s : contains p s = true ↔ occurs p s.
Proof.
  split.
  - induction s as [|c s IH]; simpl.
    + intros ->%startswith_nil_r. by exists [], [].
    + intros [H|H]%orb_prop.
      * apply startswith_iff in H as [t Ht]. by exists [], t.
      * destruct (IH H) as (u & v & ->). by exists (c :: u), v.
  - intros (u & v & ->). induction u as [|c u IH]; simpl.
    + apply contains_startswith, startswith_app.
    + rewrite IH. apply orb_true_r.
Qed.

Lemma contains_false p s : contains p s = false ↔ ¬ occurs p s.
Proof. rewrite <- contains_iff. by destruct (contains p s). Qed.

Lemma contains_cons p c s :
  contains p (c :: s) = startswith p (c :: s) || contains p s.
Proof. done. Qed.

(** An occurrence in [w ++ y] starts inside [w] or lies in [y]. *)
Lemma contains_app_inv p w y :
  contains p (w ++ y) = true →
  (∃ q, q ∈ suffixes w ∧ startswith p (q ++ y) = true) ∨ contains p y = true.
Proof.
  induction w as [|c w IH]; simpl; [by right|].
  intros [H|H]%orb_prop.
  - left. exists (c :: w). split; [left | done].
  - destruct (IH H) as [(q & Hq & Hs)|Hy]; [left | by right].
    exists q. split; [by right | done].
Qed.

Lemma occurs_length p s : occurs p s → (length p ≤ length s)%nat.
Proof. intros (u & v & ->). rewrite !length_app. lia. Qed.

Lemma removelast_length (p : str) : p ≠ [] → length (removelast p) = pred (length p).
Proof.
  intros Hp. destruct (exists_last Hp) as (q & a & ->).
  rewrite removelast_last, length_app. simpl. lia.
Qed.

(** ** The equations of [replace] *)

Lemma replace_from_drop old new s : ∀ k,
  replace_from old new k s = replace_from old new 0 (drop k s).
Proof.
  induction s as [|c s IH]; intros [|k]; try done.
  simpl. apply IH.
Qed.

Section Replace.
Variables old new : str.
Hypothesis old_nonempty : old ≠ [].

Lemma replace_unfold s : replace old new s = replace_from old new 0 s.
Proof using old_nonempty. unfold replace. by destruct old. Qed.

Lemma replace_nil : replace old new [] = [].
Proof using old_nonempty. by rewrite replace_unfold. Qed.

(** Where [old] starts, [new] is emitted and the scan resumes after the
    occurrence. *)
Lemma replace_match t : replace old new (old ++ t) = new ++ replace old new t.
Proof using old_nonempty.
  rewrite !replace_unfold. destruct old as [|a o] eqn:E; [done|].
  rewrite <- E. assert (startswith old (old ++ t) = true) as H
    by apply startswith_app.
  rewrite E in *. simpl in *. rewrite H. f_equal.
  rewrite replace_from_drop, Nat.sub_0_r. by rewrite drop_app_length.
Qed.

(** Elsewhere one character is copied. *)
Lemma replace_copy c t :
  startswith old (c :: t) = false →
  replace old new (c :: t) = c :: replace old new t.
Proof using old_nonempty.
  intros H. rewrite !replace_unfold. simpl. by rewrite H.
Qed.

Lemma replace_cases s :
  s = [] ∨
  (∃ t, s = old ++ t ∧ (length t < length s)%nat) ∨
  (∃ c t, s = c :: t ∧ startswith old s = false).
Proof using old_nonempty.
  destruct s as [|c t]; [by left | right].
  destruct (startswith old (c :: t)) eqn:E.
  - left. apply startswith_iff in E as [t' E]. exists t'. split; [done|].
    rewrite E, length_app. destruct old; [done | simpl; lia].
  - right. by exists c, t.
Qed.

(** A text in which [old] does not occur is returned as it is. *)
Lemma replace_absent s : contains old s = false → replace old new s = s.
Proof using old_nonempty.
  induction s as [|c s IH]; [by rewrite replace_nil|].
  rewrite contains_cons. intros [H1 H2]%orb_false_elim.
  rewrite replace_copy by done. f_equal. by apply IH.
Qed.
End Replace.

(** ** What the decidable conditions mean *)

Lemma clash_startswith p q x : clash p q = true → startswith p (q ++ x) = false.
Proof.
  revert q. induction p as [|a p IH]; intros [|b q]; simpl; try done.
  destruct (a =? b); simpl; [apply IH | done].
Qed.

Lemma clash_startswith_l p q : clash p q = true → startswith p q = false.
Proof.
  intros H. rewrite <- (app_nil_r q). by apply clash_startswith.
Qed.

Lemma no_start_spec p w tl :
  no_start p w tl = true →
  ∀ q x, q ∈ suffixes w → startswith p (q ++ tl ++ x) = false.
Proof.
  unfold no_start. induction w as [|c w IH]; simpl; intros H q x Hq.
  - by apply elem_of_nil in Hq.
  - apply andb_prop in H as [H1 H2].
    apply elem_of_cons in Hq as [->|Hq]; [|by apply IH].
    rewrite app_assoc. by apply clash_startswith.
Qed.

Lemma no_start_tail p c w tl :
  no_start p (c :: w) tl = true → no_start p w tl = true.
Proof. unfold no_start. simpl. by intros [_ H]%andb_prop. Qed.

Lemma steady_tail q c old new :
  steady (c :: q) old new = true → steady q old new = true.
Proof. unfold steady. simpl. by intros [_ H]%andb_prop. Qed.

Lemma steady_head q old new x y :
  steady q old new = true →
  startswith q (old ++ x) = startswith q (new ++ y).
Proof.
  destruct q as [|c q]; [done|].
  unfold steady. cbn [suffixes forallb]. intros [H _]%andb_prop.
  unfold steady1 in H.
  apply orb_prop in H as [[H1 H2]%andb_prop|[H1 H2]%andb_prop].
  - by rewrite !startswith_app_l.
  - by rewrite !clash_startswith.
Qed.

Section Conditions.
Variables old new : str.
Hypothesis old_nonempty : old ≠ [].

(** A stretch of text inside which [old] cannot start is copied. *)
Lemma replace_pass w tl x :
  no_start old w tl = true →
  replace old new (w ++ tl ++ x) = w ++ replace old new (tl ++ x).
Proof using old_nonempty.
  induction w as [|c w IH]; intros H; [done|].
  simpl. rewrite replace_copy; [|done|].
  - f_equal. apply IH. by eapply no_start_tail.
  - apply (no_start_spec _ _ _ H (c :: w) x). by left.
Qed.

Lemma replace_pass_nil w x :
  no_start old w [] = true →
  replace old new (w ++ x) = w ++ replace old new x.
Proof using old_nonempty. apply (replace_pass w [] x). Qed.

(** Whether the text starts with a steady literal is the same before
    and after the substitution. *)
Lemma steady_startswith q :
  steady q old new = true →
  ∀ s, startswith q (replace old new s) = startswith q s.
Proof using old_nonempty.
  intros Hq s. revert q Hq. induction s as [|c s IH]; intros q Hq.
  - by rewrite replace_nil.
  - destruct (startswith old (c :: s)) eqn:E.
    + apply startswith_iff in E as [t ->].
      rewrite replace_match by done. symmetry. by apply steady_head.
    + rewrite replace_copy by done.
      destruct q as [|a q]; [done|]. simpl.
      rewrite IH; [done|]. by eapply steady_tail.
Qed.
End Conditions.

Lemma str_length_ind (P : str → Prop) :
  (∀ s, (∀ t, (length t < length s)%nat → P t) → P s) → ∀ s, P s.
Proof.
  intros H s. remember (length s) as n eqn:E. revert s E.
  induction n as [n IH] using lt_wf_ind. intros s ->.
  apply H. intros t Ht. by apply (IH (length t)).
Qed.

Lemma contains_app_r p w t : contains p t = true → contains p (w ++ t) = true.
Proof.
  intros H. induction w as [|c w IH]; [done|].
  simpl. rewrite IH. apply orb_true_r.
Qed.

Lemma contains_nil_r p : p ≠ [] → contains p [] = false.
Proof. by destruct p. Qed.

Section Absence.
Variables old new : str.
Hypothesis old_nonempty : old ≠ [].

(** No occurrence of [p] starts inside an emitted [new]. *)
Lemma contains_after_new p x :
  no_start p new [] = true →
  contains p (new ++ x) = true → contains p x = true.
Proof.
  intros Hn [(q & Hq & Hs)|H]%contains_app_inv; [|done].
  pose proof (no_start_spec _ _ _ Hn q x Hq) as Hq'. simpl in Hq'.
  by rewrite Hq' in Hs.
Qed.

(** The substitution does not bring about a literal that it neither
    emits nor completes. *)
Lemma replace_stays_absent p :
  no_start p new [] = true → steady p old new = true →
  ∀ s, contains p s = false → contains p (replace old new s) = false.
Proof using old_nonempty.
  intros Hn Hs s. induction s as [s IH] using str_length_ind. intros Hp.
  destruct (replace_cases old old_nonempty s)
    as [->|[(t & -> & Ht)|(c & t & -> & Hc)]].
  - by rewrite replace_nil.
  - rewrite replace_match by done.
    destruct (contains p (new ++ replace old new t)) eqn:E; [|done].
    apply contains_after_new in E; [|done].
    rewrite IH in E; [done | done |].
    destruct (contains p t) eqn:E'; [|done].
    by rewrite (contains_app_r _ old _ E') in Hp.
  - rewrite contains_cons in Hp. apply orb_false_elim in Hp as [H1 H2].
    assert (startswith p (c :: replace old new t) = false) as H3.
    { rewrite <- (replace_copy old new old_nonempty c t Hc).
      by rewrite steady_startswith. }
    rewrite replace_copy, contains_cons, H3 by done.
    apply IH; [simpl; lia | done].
Qed.
End Absence.

Section Vanishing.
Variables (a : N) (o new : str).
Let old := a :: o.

(** After the substitution the search literal is gone, provided [new]
    does not contain a start of it and its own tail is steady. *)
Lemma replace_vanishes :
  no_start old new [] = true → steady o old new = true →
  ∀ s, contains old (replace old new s) = false.
Proof.
  assert (old ≠ []) as Hne by done.
  intros Hn Hs s. induction s as [s IH] using str_length_ind.
  destruct (replace_cases old Hne s)
    as [->|[(t & -> & Ht)|(c & t & -> & Hc)]].
  - by rewrite replace_nil.
  - rewrite replace_match by done.
    destruct (contains old (new ++ replace old new t)) eqn:E; [|done].
    apply contains_after_new in E; [|done]. by rewrite IH in E.
  - rewrite replace_copy, contains_cons by done.
    rewrite IH by (simpl; lia). rewrite orb_false_r.
    change (startswith old (c :: replace old new t))
      with ((a =? c) && startswith o (replace old new t)).
    by rewrite steady_startswith.
Qed.
End Vanishing.

Lemma vanishes_spec r :
  vanishes r = true →
  ∀ s, ¬ occurs (search r) (apply_rule r s).
Proof.
  unfold vanishes, apply_rule. destruct (search r) as [|a o]; [done|].
  intros [H1 H2]%andb_prop s. apply contains_false.
  by apply replace_vanishes.
Qed.

Lemma stays_absent_spec p r :
  stays_absent p r = true →
  ∀ s, ¬ occurs p s → ¬ occurs p (apply_rule r s).
Proof.
  unfold stays_absent, apply_rule. destruct (search r) as [|a o] eqn:E; [done|].
  intros [H1 H2]%andb_prop s Hs%contains_false. apply contains_false.
  by apply replace_stays_absent.
Qed.

Lemma apply_rule_absent r s :
  search r ≠ [] → ¬ occurs (search r) s → apply_rule r s = s.
Proof.
  intros Hne Hs%contains_false. by apply replace_absent.
Qed.

(** ** [replace] and the specification's substitution *)

Section Refinement.
Variables old new : str.
Hypothesis old_nonempty : old ≠ [].

Lemma not_occurs_removelast : ¬ occurs old (removelast old).
Proof using old_nonempty.
  intros H%occurs_length. rewrite removelast_length in H by done.
  destruct old; [done | simpl in H; lia].
Qed.

Lemma startswith_before_end u t :
  u ≠ [] →
  startswith old (u ++ old ++ t) = startswith old (u ++ removelast old).
Proof using old_nonempty.
  intros Hu. rewrite (app_removelast_last 0 old_nonempty) at 2.
  rewrite <- app_assoc, app_assoc. apply startswith_short.
  rewrite length_app, removelast_length by done.
  destruct u; [done | simpl; lia].
Qed.

(** Before its leftmost occurrence the text is copied. *)
Lemma replace_leftmost u t :
  ¬ occurs old (u ++ removelast old) →
  replace old new (u ++ old ++ t) = u ++ new ++ replace old new t.
Proof using old_nonempty.
  induction u as [|c u IH]; intros Hu; simpl.
  - by apply replace_match.
  - apply contains_false in Hu. simpl in Hu.
    apply orb_false_elim in Hu as [H1 H2].
    rewrite replace_copy; [|done|].
    + f_equal. apply IH. by apply contains_false.
    + pose proof (startswith_before_end (c :: u) t ltac:(done)) as H.
      simpl in H. by rewrite H.
Qed.

Lemma leftmost_split s :
  contains old s = true →
  ∃ u t, s = u ++ old ++ t ∧ ¬ occurs old (u ++ removelast old).
Proof using old_nonempty.
  induction s as [|c s IH]; simpl.
  - intros H%startswith_nil_r. done.
  - destruct (startswith old (c :: s)) eqn:E; simpl.
    + intros _. apply startswith_iff in E as [t E].
      exists [], t. split; [done | apply not_occurs_removelast].
    + intros (u & t & -> & Hu)%IH. exists (c :: u), t. split; [done|].
      apply contains_false. simpl. apply orb_false_intro.
      * pose proof (startswith_before_end (c :: u) t ltac:(done)) as H.
        simpl in H. by rewrite <- H.
      * by apply contains_false.
Qed.

Lemma replaced_every_replace s : replaced_every old new s (replace old new s).
Proof using old_nonempty.
  induction s as [s IH] using str_length_ind.
  destruct (contains old s) eqn:E.
  - apply leftmost_split in E as (u & t & -> & Hu).
    rewrite replace_leftmost by done. apply replaced_leftmost; [done|].
    apply IH. rewrite !length_app. destruct old; [done | simpl; lia].
  - rewrite replace_absent by done. apply replaced_none.
    by apply contains_false.
Qed.

Lemma replaced_every_unique s r :
  replaced_every old new s r → r = replace old new s.
Proof using old_nonempty.
  induction 1 as [s Hs|u t r Hu _ IH].
  - symmetry. apply replace_absent; [done | by apply contains_false].
  - rewrite replace_leftmost by done. by rewrite IH.
Qed.

Lemma replaced_every_iff s r :
  replaced_every old new s r ↔ r = replace old new s.
Proof using old_nonempty.
  split; [apply replaced_every_unique|].
  intros ->. apply replaced_every_replace.
Qed.
End Refinement.

(** ** When two substitutions commute *)

Lemma steady_drop w q old new :
  steady (w ++ q) old new = true → steady q old new = true.
Proof.
  induction w as [|c w IH]; [done|]. intros H. apply IH.
  by eapply steady_tail.
Qed.

Section Commutation.
Variables oa na ob nb core core' tl : str.
Hypothesis oa_split : oa = core ++ tl.
Hypothesis na_split : na = core' ++ tl.
Hypothesis core_nonempty : core ≠ [].
Hypothesis ob_nonempty : ob ≠ [].
Hypothesis a_not_in_ob : no_start oa ob [] = true.
Hypothesis a_not_in_nb : no_start oa nb [] = true.
Hypothesis b_not_in_core : no_start ob core tl = true.
Hypothesis b_not_in_core' : no_start ob core' tl = true.
Hypothesis a_not_in_tl : no_start oa tl [] = true.
Hypothesis a_steady : steady oa ob nb = true.
Hypothesis b_steady : steady ob oa na = true.

Lemma oa_nonempty : oa ≠ [].
Proof using oa_split core_nonempty.
  clear - oa_split core_nonempty.
  rewrite oa_split. by destruct core.
Qed.

(** The substitution [b] keeps the common part in front of a text. *)
Lemma tl_kept t : ∃ z, replace ob nb (tl ++ t) = tl ++ z.
Proof using oa_split ob_nonempty a_steady.
  apply startswith_iff. rewrite steady_startswith; [|done|].
  - apply startswith_app.
  - apply (steady_drop core). by rewrite <- oa_split.
Qed.

Lemma replace_commute s :
  replace oa na (replace ob nb s) = replace ob nb (replace oa na s).
Proof using All.
  pose proof oa_nonempty as oa_ne.
  induction s as [s IH] using str_length_ind.
  destruct (replace_cases ob ob_nonempty s)
    as [->|[(t & -> & Ht)|(c & t & -> & Hb)]].
  - by rewrite !replace_nil.
  - (* [ob] starts the text *)
    rewrite (replace_match ob nb) by done.
    rewrite !(replace_pass_nil oa na) by done.
    rewrite (replace_match ob nb) by done.
    by rewrite IH.
  - destruct (startswith oa (c :: t)) eqn:Ha.
    + (* [oa] starts the text *)
      apply startswith_iff in Ha as [t' E]. rewrite E in *.
      assert (length (tl ++ t') < length (oa ++ t'))%nat as Hlen.
      { rewrite oa_split, !length_app. destruct core; [done | simpl; lia]. }
      rewrite (replace_match oa na) by done.
      rewrite oa_split at 2. rewrite na_split at 2.
      rewrite <- !app_assoc.
      rewrite !(replace_pass ob nb) by done.
      rewrite <- (replace_pass_nil oa na) by done.
      rewrite <- (IH _ Hlen).
      destruct (tl_kept t') as [z ->].
      rewrite app_assoc, <- oa_split.
      rewrite replace_match, replace_pass_nil by done.
      by rewrite na_split, <- app_assoc.
    + (* neither starts the text *)
      assert (startswith oa (c :: replace ob nb t) = false) as Ha'.
      { rewrite <- (replace_copy ob nb ob_nonempty c t Hb).
        by rewrite steady_startswith. }
      assert (startswith ob (c :: replace oa na t) = false) as Hb'.
      { rewrite <- (replace_copy oa na oa_ne c t Ha).
        by rewrite steady_startswith. }
      rewrite (replace_copy ob nb), (replace_copy oa na) by done.
      rewrite (replace_copy oa na), (replace_copy ob nb) by done.
      f_equal. apply IH. simpl. lia.
Qed.
End Commutation.

Lemma independent_commute a b core core' tl :
  independent a b core core' tl = true →
  ∀ s, apply_rule a (apply_rule b s) = apply_rule b (apply_rule a s).
Proof.
  unfold independent. rewrite !andb_true_iff, !negb_true_iff.
  rewrite !bool_decide_eq_true, !bool_decide_eq_false.
  intros [[[[[[[[[[H1 H2] H3] H4] H5] H6] H7] H8] H9] H10] H11] s.
  unfold apply_rule. by apply (replace_commute _ _ _ _ core core' tl).
Qed.

(** ** The four rules of the script *)

Lemma fix_content_rules s : fix_content s = apply_rules rules s.
Proof. reflexivity. Qed.

Lemma occurs_singleton c s : occurs [c] s ↔ c ∈ s.
Proof.
  split.
  - intros (u & v & ->). apply elem_of_app. right. by left.
  - intros (u & v & ->)%list_elem_of_split. by exists u, v.
Qed.

(** After each rule its search literal is gone, and no later rule brings
    an earlier one back. *)
Lemma rules_vanish :
  vanishes rule_nbsp = true ∧ vanishes rule_obervations = true ∧
  vanishes rule_bellow = true ∧ vanishes rule_strenght = true.
Proof. by vm_compute. Qed.

Lemma later_rules_keep_absent :
  (stays_absent NBSP rule_obervations = true ∧
   stays_absent NBSP rule_bellow = true ∧
   stays_absent NBSP rule_strenght = true) ∧
  (stays_absent (lit "obervations") rule_bellow = true ∧
   stays_absent (lit "obervations") rule_strenght = true) ∧
  stays_absent (lit "The code bellow") rule_strenght = true.
Proof. by vm_compute. Qed.

Lemma fix_content_free s :
  ¬ occurs NBSP (fix_content s) ∧
  ¬ occurs (lit "obervations") (fix_content s) ∧
  ¬ occurs (lit "The code bellow") (fix_content s) ∧
  ¬ occurs (lit "strenght.html") (fix_content s).
Proof.
  destruct rules_vanish as (V1 & V2 & V3 & V4).
  destruct later_rules_keep_absent as ((K12 & K13 & K14) & (K23 & K24) & K34).
  rewrite fix_content_rules. unfold apply_rules, rules. cbn [fold_left].
  set (s1 := apply_rule rule_nbsp s).
  set (s2 := apply_rule rule_obervations s1).
  set (s3 := apply_rule rule_bellow s2).
  pose proof (vanishes_spec _ V1 s) as H1. fold s1 in H1.
  pose proof (vanishes_spec _ V2 s1) as H2. fold s2 in H2.
  pose proof (vanishes_spec _ V3 s2) as H3. fold s3 in H3.
  pose proof (vanishes_spec _ V4 s3) as H4.
  repeat split; [| | |exact H4].
  - by apply (stays_absent_spec _ _ K14), (stays_absent_spec _ _ K13),
      (stays_absent_spec _ _ K12).
  - by apply (stays_absent_spec _ _ K24), (stays_absent_spec _ _ K23).
  - by apply (stays_absent_spec _ _ K34).
Qed.

(** A text without any of the four search literals is left as it is. *)
Lemma fix_content_untouched s :
  ¬ occurs NBSP s →
  ¬ occurs (lit "obervations") s →
  ¬ occurs (lit "The code bellow") s →
  ¬ occurs (lit "strenght.html") s →
  fix_content s = s.
Proof.
  intros H1 H2 H3 H4.
  rewrite fix_content_rules. unfold apply_rules, rules. cbn [fold_left].
  rewrite (apply_rule_absent rule_nbsp) by done.
  rewrite (apply_rule_absent rule_obervations) by done.
  rewrite (apply_rule_absent rule_bellow) by done.
  by rewrite (apply_rule_absent rule_strenght).
Qed.

(** Which pairs of rules commute. The literals of the obervations rule
    end in the letter that starts the literals of the strenght rule. *)
Lemma commute_nbsp_obervations s :
  apply_rule rule_nbsp (apply_rule rule_obervations s)
  = apply_rule rule_obervations (apply_rule rule_nbsp s).
Proof. apply (independent_commute _ _ NBSP SPACE []). by vm_compute. Qed.

Lemma commute_nbsp_strenght s :
  apply_rule rule_nbsp (apply_rule rule_strenght s)
  = apply_rule rule_strenght (apply_rule rule_nbsp s).
Proof. apply (independent_commute _ _ NBSP SPACE []). by vm_compute. Qed.

Lemma commute_obervations_bellow s :
  apply_rule rule_obervations (apply_rule rule_bellow s)
  = apply_rule rule_bellow (apply_rule rule_obervations s).
Proof.
  apply (independent_commute _ _ (lit "obervations") (lit "observations") []).
  by vm_compute.
Qed.

Lemma commute_obervations_strenght s :
  apply_rule rule_obervations (apply_rule rule_strenght s)
  = apply_rule rule_strenght (apply_rule rule_obervations s).
Proof.
  apply (independent_commute _ _ (lit "obervation") (lit "observation") (lit "s")).
  by vm_compute.
Qed.

Lemma commute_bellow_strenght s :
  apply_rule rule_bellow (apply_rule rule_strenght s)
  = apply_rule rule_strenght (apply_rule rule_bellow s).
Proof.
  apply (independent_commute _ _ (lit "The code bellow") (lit "The code below") []).
  by vm_compute.
Qed.

(** The 24 orders of four things. *)
Lemma four_orders {A} (a b c d : A) (l : list A) :
  l ≡ₚ [a; b; c; d] →
  l ∈ ltac:(let t := eval vm_compute in (permutations [a; b; c; d]) in exact t).
Proof.
  intros H. symmetry in H. by apply permutations_Permutation in H.
Qed.

Ltac each_order H :=
  apply four_orders in H;
  repeat (apply elem_of_cons in H as [->|H]);
  [..| by apply elem_of_nil in H].

Ltac sort_rules :=
  unfold apply_rules, rules; cbn [fold_left];
  repeat rewrite ?commute_nbsp_obervations, ?commute_nbsp_strenght,
    ?commute_obervations_bellow, ?commute_obervations_strenght,
    ?commute_bellow_strenght.

(** Every order that applies the bellow rule before the nbsp rule leaves
    the typo in that text. *)
Lemma bellow_before_nbsp rs :
  rs ≡ₚ rules → applied_before rule_bellow rule_nbsp rs = true →
  apply_rules rs the_nbsp_code_bellow = lit "The code bellow"
  ∧ fix_content the_nbsp_code_bellow = lit "The code below".
Proof.
  intros Hp Hb. split; [|by vm_compute].
  each_order Hp; by vm_compute in Hb |- *.
Qed.

(** * The transformation of the text *)

(** C1: for every document, the program's result is the result of the
    four literal substitutions of the specification taken in its order
    (U+00A0 to U+0020, then "obervations", then "The code bellow", then
    "strenght.html"), each replacing every non-overlapping occurrence in the
    output of the previous one; and nothing else is such a result. *)
Theorem fix_content_four_steps (s r : str) :
  four_steps s r ↔ r = fix_content s.
Proof.
  unfold four_steps, fix_content. split.
  - intros (s1 & s2 & s3 & H1 & H2 & H3 & H4).
    apply replaced_every_unique in H1 as ->; [|done].
    apply replaced_every_unique in H2 as ->; [|done].
    apply replaced_every_unique in H3 as ->; [|done].
    by apply replaced_every_unique in H4 as ->.
  - intros ->. eexists _, _, _.
    repeat split; by apply replaced_every_replace.
Qed.

(** C2: the text "a b obervations The code bellow see strenght.html"
    becomes "a b observations The code below see strength.html". *)
Theorem fix_content_scenario :
  fix_content
    (lit "a" ++ NBSP ++ lit "b obervations The code bellow see strenght.html")
  = lit "a b observations The code below see strength.html".
Proof. vm_compute. reflexivity. Qed.

(** C3: the output contains neither the character U+00A0 nor one of the
    substrings "obervations", "The code bellow", "strenght.html". *)
Theorem fix_content_output_clean (s : str) :
  (160 ∉ fix_content s) ∧
  ¬ occurs (lit "obervations") (fix_content s) ∧
  ¬ occurs (lit "The code bellow") (fix_content s) ∧
  ¬ occurs (lit "strenght.html") (fix_content s).
Proof.
  destruct (fix_content_free s) as (H1 & H2 & H3 & H4).
  repeat split; try done. by rewrite <- occurs_singleton.
Qed.

(** C4: the transformation is idempotent: applied to its own output it
    changes nothing. *)
Theorem fix_content_idempotent (s : str) :
  fix_content (fix_content s) = fix_content s.
Proof.
  destruct (fix_content_free s) as (H1 & H2 & H3 & H4).
  by apply fix_content_untouched.
Qed.

(** C5: a document with no occurrence of any of the four search literals
    comes out exactly as it went in. *)
Theorem fix_content_no_match (s : str) :
  160 ∉ s →
  ¬ occurs (lit "obervations") s →
  ¬ occurs (lit "The code bellow") s →
  ¬ occurs (lit "strenght.html") s →
  fix_content s = s.
Proof.
  intros H1 H2 H3 H4. apply fix_content_untouched; try done.
  unfold NBSP. by rewrite occurs_singleton.
Qed.

Lemma fix_content_no_match_witness :
  fix_content (lit "no matches here") = lit "no matches here".
Proof.
  apply (fix_content_no_match (lit "no matches here")).
  - rewrite <- occurs_singleton. apply contains_false. vm_compute. reflexivity.
  - apply contains_false. vm_compute. reflexivity.
  - apply contains_false. vm_compute. reflexivity.
  - apply contains_false. vm_compute. reflexivity.
Defined.

(** C6, as the code has it: the order of the nbsp rule and the bellow
    rule matters, because "The code bellow" contains spaces. Every order of
    the four rules that applies the nbsp rule before the bellow rule (12 of
    the 24) gives the result of the implemented order. *)
Theorem rule_order_nbsp_before_bellow (rs : list rule) (s : str) :
  rs ≡ₚ rules →
  applied_before rule_nbsp rule_bellow rs = true →
  apply_rules rs s = fix_content s.
Proof.
  intros Hp Hb. rewrite fix_content_rules.
  each_order Hp; vm_compute in Hb; try discriminate Hb; clear Hb;
    sort_rules; reflexivity.
Qed.

Lemma rule_order_nbsp_before_bellow_witness :
  [rule_strenght; rule_nbsp; rule_bellow; rule_obervations] ≡ₚ rules ∧
  applied_before rule_nbsp rule_bellow
    [rule_strenght; rule_nbsp; rule_bellow; rule_obervations] = true ∧
  apply_rules [rule_strenght; rule_nbsp; rule_bellow; rule_obervations]
    the_nbsp_code_bellow
  = fix_content the_nbsp_code_bellow.
Proof.
  assert ([rule_strenght; rule_nbsp; rule_bellow; rule_obervations] ≡ₚ rules)
    as Hp by (unfold rules; solve_Permutation).
  split; [exact Hp|]. split; [vm_compute; reflexivity|].
  apply rule_order_nbsp_before_bellow; [exact Hp | vm_compute; reflexivity].
Defined.

(** C6, as the specification has it, fails: applying the bellow rule
    first leaves "The code bellow" in the text "The code bellow", which
    the implemented order turns into "The code below". *)
Lemma rule_order_counterexample :
  ¬ (∀ (rs : list rule) (s : str), rs ≡ₚ rules → apply_rules rs s = fix_content s).
Proof.
  intros H.
  specialize (H [rule_bellow; rule_nbsp; rule_obervations; rule_strenght]
                the_nbsp_code_bellow).
  assert ([rule_bellow; rule_nbsp; rule_obervations; rule_strenght] ≡ₚ rules)
    as Hp by (unfold rules; solve_Permutation).
  specialize (H Hp). vm_compute in H. discriminate H.
Qed.

(** * The run of the script *)

Lemma run_exit_0 w w' : run w = (0, w') ↔ script w = (inr (), w').
Proof.
  unfold run. destruct (script w) as [[e|[]] w'']; simpl; split;
    intros H; by inversion H.
Qed.

Lemma bind_unfold {A B} (m : io A) (k : A → io B) w :
  (m ≫= k) w = match m w with
               | (inl e, w') => (inl e, w')
               | (inr a, w') => k a w'
               end.
Proof. reflexivity. Qed.

Lemma open_read_unfold path w :
  open_read path w =
    match fs w !! path with
    | None => (inl FileNotFoundError, w)
    | Some f => if readable f then (inr path, w) else (inl PermissionError, w)
    end.
Proof. reflexivity. Qed.

Lemma fread_ok h w f text :
  fs w !! h = Some f → utf8_decode (data f) = Some text →
  fread h w = (inr (universal_newlines text), w).
Proof. intros Hf Hd. unfold fread. by rewrite Hf, Hd. Qed.

Lemma fread_undecodable h w f :
  fs w !! h = Some f → utf8_decode (data f) = None →
  fread h w = (inl UnicodeDecodeError, w).
Proof. intros Hf Hd. unfold fread. by rewrite Hf, Hd. Qed.

Lemma open_write_ok path w f :
  fs w !! path = Some f → writable f = true →
  open_write path w =
    (inr path, World (<[path := File [] (readable f) true]> (fs w)) (stdout w)).
Proof. intros Hf Hw. unfold open_write. by rewrite Hf, Hw. Qed.

Lemma open_write_denied path w f :
  fs w !! path = Some f → writable f = false →
  open_write path w = (inl PermissionError, w).
Proof. intros Hf Hw. unfold open_write. by rewrite Hf, Hw. Qed.

Lemma fwrite_ok h w f content bs :
  fs w !! h = Some f → utf8_encode content = Some bs →
  fwrite h content w =
    (inr (), World (<[h := File (data f ++ bs) (readable f) (writable f)]> (fs w))
               (stdout w)).
Proof. intros Hf He. unfold fwrite. by rewrite He, Hf. Qed.

Lemma fwrite_unencodable h w content :
  utf8_encode content = None →
  fwrite h content w = (inl UnicodeEncodeError, w).
Proof. intros He. unfold fwrite. by rewrite He. Qed.

(** What a run does when the file can be read, decoded, encoded and
    written. *)
Lemma script_success w f text bs :
  fs w !! PATH = Some f →
  readable f = true → writable f = true →
  utf8_decode (data f) = Some text →
  utf8_encode (fix_content (universal_newlines text)) = Some bs →
  script w =
    (inr (), World (<[PATH := File bs true true]> (fs w))
               (stdout w ++ CONFIRMATION ++ [10])).
Proof.
  intros Hf Hr Hw Hd He. unfold script.
  rewrite bind_unfold, open_read_unfold, Hf, Hr.
  rewrite bind_unfold, (fread_ok _ _ f text) by done.
  rewrite bind_unfold, (open_write_ok _ _ f) by done.
  rewrite bind_unfold, (fwrite_ok _ _ (File [] (readable f) true) _ bs);
    [|apply lookup_insert_eq | done].
  unfold print. simpl. by rewrite insert_insert_eq, Hr.
Qed.

(** A run that does not raise went through all of that. *)
Lemma script_success_inv w w' :
  script w = (inr (), w') →
  ∃ f text bs,
    fs w !! PATH = Some f ∧ readable f = true ∧ writable f = true ∧
    utf8_decode (data f) = Some text ∧
    utf8_encode (fix_content (universal_newlines text)) = Some bs ∧
    w' = World (<[PATH := File bs true true]> (fs w))
           (stdout w ++ CONFIRMATION ++ [10]).
Proof.
  unfold script. rewrite bind_unfold, open_read_unfold.
  destruct (fs w !! PATH) as [f|] eqn:Hf; [|done].
  destruct (readable f) eqn:Hr; [|done].
  rewrite bind_unfold.
  destruct (utf8_decode (data f)) as [text|] eqn:Hd;
    [|by rewrite (fread_undecodable _ _ f)].
  rewrite (fread_ok _ _ f text), bind_unfold by done.
  destruct (writable f) eqn:Hw; [|by rewrite (open_write_denied _ _ f)].
  rewrite (open_write_ok _ _ f), bind_unfold by done.
  destruct (utf8_encode (fix_content (universal_newlines text)))
    as [bs|] eqn:He; [|by rewrite fwrite_unencodable].
  rewrite (fwrite_ok _ _ (File [] (readable f) true) _ bs);
    [|apply lookup_insert_eq | done].
  unfold print. simpl. rewrite insert_insert_eq, Hr. intros [= <-].
  by exists f, text, bs.
Qed.

(** C7: when the file is missing, or may not be read, or does not hold
    valid UTF-8, the script raises in its reading statements, the process
    exits with status 1, and the world is as it was: no file has changed
    and nothing has been printed. *)
Theorem read_failure_changes_nothing (w : world) :
  (fs w !! PATH = None ∨
   ∃ f, fs w !! PATH = Some f ∧
        (readable f = false ∨ utf8_decode (data f) = None)) →
  ∃ e, (open_read PATH ≫= fread) w = (inl e, w) ∧
       script w = (inl e, w) ∧
       run w = (1, w).
Proof.
  unfold run, script. intros H.
  assert (∃ e, (open_read PATH ≫= fread) w = (inl e, w)) as [e He].
  { rewrite bind_unfold, open_read_unfold.
    destruct H as [Hf|(f & Hf & [Hr|Hd])]; rewrite Hf.
    - by exists FileNotFoundError.
    - rewrite Hr. by exists PermissionError.
    - destruct (readable f); [|by exists PermissionError].
      rewrite (fread_undecodable _ _ f) by done. by exists UnicodeDecodeError. }
  exists e. split; [done|].
  rewrite (bind_unfold (open_read PATH) fread w) in He.
  rewrite bind_unfold.
  destruct (open_read PATH w) as [[e'|h] w1]; [by inversion He|].
  by rewrite bind_unfold, He.
Qed.

Lemma read_failure_changes_nothing_witness :
  fs (World ∅ []) !! PATH = None ∧ run (World ∅ []) = (1, World ∅ []).
Proof.
  split; [reflexivity|].
  destruct (read_failure_changes_nothing (World ∅ [])) as (e & _ & _ & H).
  - left. reflexivity.
  - exact H.
Defined.

(** C8: an empty file that may be read and written is written back empty,
    and the confirmation line is printed. *)
Theorem empty_file_stays_empty (w : world) (f : file) :
  fs w !! PATH = Some f → data f = [] →
  readable f = true → writable f = true →
  ∃ w', run w = (0, w') ∧
        data <$> fs w' !! PATH = Some [] ∧
        stdout w' = stdout w ++ lit "File updated successfully." ++ [10].
Proof.
  intros Hf Hd Hr Hw. eexists. split.
  - apply run_exit_0. apply (script_success w f [] []); try done.
    by rewrite Hd.
  - simpl. by rewrite lookup_insert_eq.
Qed.

Lemma empty_file_stays_empty_witness :
  ∃ w', run (World {[PATH := File [] true true]} []) = (0, w') ∧
        data <$> fs w' !! PATH = Some [] ∧
        stdout w' = lit "File updated successfully." ++ [10].
Proof.
  apply (empty_file_stays_empty
           (World {[PATH := File [] true true]} []) (File [] true true));
    reflexivity.
Defined.

(** C9: a run that exits with status 0 has added to standard output the
    line "File updated successfully." and nothing else, whatever the file
    held. *)
Theorem success_prints_one_line (w w' : world) :
  run w = (0, w') →
  stdout w' = stdout w ++ lit "File updated successfully." ++ [10]
  ∧ 10 ∉ lit "File updated successfully.".
Proof.
  intros H%run_exit_0. split.
  - by destruct (script_success_inv _ _ H) as (f & text & bs & _ & _ & _ & _ & _ & ->).
  - rewrite <- occurs_singleton. apply contains_false. by vm_compute.
Qed.

Lemma success_prints_one_line_witness :
  run sample_world = (0, (run sample_world).2) ∧
  stdout (run sample_world).2
  = stdout sample_world ++ lit "File updated successfully." ++ [10].
Proof.
  split; [vm_compute; reflexivity|].
  apply (success_prints_one_line sample_world). vm_compute. reflexivity.
Defined.

(** * The codec *)

Lemma all_bits_spec k P :
  all_bits k P = true → ∀ n, n < 2 ^ N.of_nat k → P n = true.
Proof.
  revert P. induction k as [|k IH]; intros P H n Hn.
  - simpl in *. by replace n with 0 by lia.
  - simpl in H. apply andb_prop in H as [H0 H1].
    rewrite Nat2N.inj_succ, N.pow_succ_r' in Hn.
    destruct n as [|[p|p|]].
    + apply (IH _ H0 0). lia.
    + apply (IH _ H1 (Npos p)). lia.
    + apply (IH _ H0 (Npos p)). lia.
    + apply (IH _ H1 0). lia.
Qed.

Lemma byte_tests_all : all_bits 8 byte_tests_ok = true.
Proof. vm_compute. reflexivity. Qed.

Lemma byte_tests b :
  b < 256 →
  (N.land b 0xE0 =? 0xC0) = (0xC0 <=? b) && (b <? 0xE0) ∧
  (N.land b 0xF0 =? 0xE0) = (0xE0 <=? b) && (b <? 0xF0) ∧
  (N.land b 0xF8 =? 0xF0) = (0xF0 <=? b) && (b <? 0xF8) ∧
  is_continuation b = (0x80 <=? b) && (b <? 0xC0).
Proof.
  intros Hb. pose proof (all_bits_spec 8 _ byte_tests_all b Hb) as H.
  unfold byte_tests_ok in H. rewrite !andb_true_iff in H.
  destruct H as [[[H1 H2] H3] H4]. by repeat split; apply eqb_prop.
Qed.

(** ** Bit operations as arithmetic *)

Lemma land_shiftl_low a b k : b < 2 ^ k → N.land (N.shiftl a k) b = 0.
Proof.
  intros Hb. apply N.bits_inj. intros n. rewrite N.land_spec, N.bits_0.
  destruct (N.lt_ge_cases n k) as [Hn|Hn].
  - by rewrite N.shiftl_spec_low.
  - destruct (N.eq_dec b 0) as [->|Hb0]; [by rewrite N.bits_0, andb_false_r|].
    rewrite (N.bits_above_log2 b n), andb_false_r; [done|].
    apply N.lt_le_trans with k; [|done]. apply N.log2_lt_pow2; lia.
Qed.

Lemma lor_shiftl_add a b k : b < 2 ^ k → N.lor (N.shiftl a k) b = a * 2 ^ k + b.
Proof.
  intros Hb. rewrite <- N.lxor_lor, <- N.add_nocarry_lxor, N.shiftl_mul_pow2;
    by try apply land_shiftl_low.
Qed.

Lemma payload_mod b : payload b = b mod 64.
Proof. apply (N.land_ones b 6). Qed.

Lemma land_31 b : N.land b 0x1F = b mod 32.
Proof. apply (N.land_ones b 5). Qed.

Lemma land_15 b : N.land b 0x0F = b mod 16.
Proof. apply (N.land_ones b 4). Qed.

Lemma land_7 b : N.land b 0x07 = b mod 8.
Proof. apply (N.land_ones b 3). Qed.

Lemma shiftr_6 c : N.shiftr c 6 = c / 64.
Proof. apply (N.shiftr_div_pow2 c 6). Qed.

Lemma shiftr_12 c : N.shiftr c 12 = c / 4096.
Proof. apply (N.shiftr_div_pow2 c 12). Qed.

Lemma shiftr_18 c : N.shiftr c 18 = c / 262144.
Proof. apply (N.shiftr_div_pow2 c 18). Qed.

Ltac div_lia := zify; Z.to_euclidean_division_equations; lia.

(** What the decoder computes from two, three and four bytes. *)
Lemma join_two b0 b1 :
  N.lor (N.shiftl (N.land b0 0x1F) 6) (payload b1)
  = b0 mod 32 * 64 + b1 mod 64.
Proof.
  rewrite land_31, payload_mod, lor_shiftl_add; [done|].
  change (2 ^ 6) with 64. div_lia.
Qed.

Lemma join_three b0 b1 b2 :
  N.lor (N.shiftl (N.land b0 0x0F) 12)
    (N.lor (N.shiftl (payload b1) 6) (payload b2))
  = b0 mod 16 * 4096 + b1 mod 64 * 64 + b2 mod 64.
Proof.
  rewrite land_15, !payload_mod, (lor_shiftl_add _ _ 6), lor_shiftl_add.
  - change (2 ^ 6) with 64. change (2 ^ 12) with 4096. lia.
  - change (2 ^ 6) with 64. change (2 ^ 12) with 4096. div_lia.
  - change (2 ^ 6) with 64. div_lia.
Qed.

Lemma join_four b0 b1 b2 b3 :
  N.lor (N.shiftl (N.land b0 0x07) 18)
    (N.lor (N.shiftl (payload b1) 12)
       (N.lor (N.shiftl (payload b2) 6) (payload b3)))
  = b0 mod 8 * 262144 + b1 mod 64 * 4096 + b2 mod 64 * 64 + b3 mod 64.
Proof.
  rewrite land_7, !payload_mod, (lor_shiftl_add _ _ 6), (lor_shiftl_add _ _ 12),
    lor_shiftl_add.
  - change (2 ^ 6) with 64. change (2 ^ 12) with 4096.
    change (2 ^ 18) with 262144. lia.
  - change (2 ^ 6) with 64. change (2 ^ 12) with 4096.
    change (2 ^ 18) with 262144. div_lia.
  - change (2 ^ 6) with 64. change (2 ^ 12) with 4096. div_lia.
  - change (2 ^ 6) with 64. div_lia.
Qed.

(** The bytes the encoder builds. *)
Lemma encode_bytes c :
  N.lor 0xC0 (N.shiftr c 6) = N.lor (N.shiftl 6 5) (c / 64) ∧
  N.lor 0xE0 (N.shiftr c 12) = N.lor (N.shiftl 14 4) (c / 4096) ∧
  N.lor 0xF0 (N.shiftr c 18) = N.lor (N.shiftl 30 3) (c / 262144) ∧
  N.lor 0x80 (payload c) = 0x80 + c mod 64 ∧
  N.lor 0x80 (payload (N.shiftr c 6)) = 0x80 + (c / 64) mod 64 ∧
  N.lor 0x80 (payload (N.shiftr c 12)) = 0x80 + (c / 4096) mod 64.
Proof.
  rewrite shiftr_6, shiftr_12, shiftr_18, !payload_mod.
  repeat split; try done;
    change 0x80 with (N.shiftl 2 6); rewrite lor_shiftl_add; try done;
    change (2 ^ 6) with 64; div_lia.
Qed.

(** ** The encoder and the decoder against the definition of UTF-8 *)

Lemma utf8_encode_char_arith c :
  utf8_encode_char c =
    if c <? 0x80 then Some [c]
    else if c <? 0x800 then Some [0xC0 + c / 64; 0x80 + c mod 64]
    else if c <? 0x10000 then
      if (0xD800 <=? c) && (c <=? 0xDFFF) then None
      else Some [0xE0 + c / 4096; 0x80 + (c / 64) mod 64; 0x80 + c mod 64]
    else if c <? 0x110000 then
      Some [0xF0 + c / 262144; 0x80 + (c / 4096) mod 64;
            0x80 + (c / 64) mod 64; 0x80 + c mod 64]
    else None.
Proof.
  unfold utf8_encode_char.
  destruct (encode_bytes c) as (E2 & E3 & E4 & Ec & Ec6 & Ec12).
  rewrite E2, E3, E4, Ec, Ec6, Ec12.
  repeat case_match; try done; f_equal; f_equal;
    rewrite lor_shiftl_add; try done; div_lia.
Qed.

(** The encoder produces the UTF-8 form, and only that. *)
Lemma utf8_encode_char_spec c l : utf8_encode_char c = Some l ↔ utf8_char c l.
Proof.
  rewrite utf8_encode_char_arith. split.
  - repeat case_match; intros [= <-].
    + apply utf8_one. lia.
    + pose proof (utf8_two (c / 64) (c mod 64)) as U.
      replace (c / 64 * 64 + c mod 64) with c in U by div_lia.
      apply U; div_lia.
    + pose proof (utf8_three (c / 4096) ((c / 64) mod 64) (c mod 64)) as U.
      replace (c / 4096 * 4096 + (c / 64) mod 64 * 64 + c mod 64)
        with c in U by div_lia.
      apply U; div_lia.
    + pose proof (utf8_four (c / 262144) ((c / 4096) mod 64)
                    ((c / 64) mod 64) (c mod 64)) as U.
      replace (c / 262144 * 262144 + (c / 4096) mod 64 * 4096
               + (c / 64) mod 64 * 64 + c mod 64) with c in U by div_lia.
      apply U; div_lia.
  - destruct 1; repeat case_match; try (exfalso; lia);
      repeat f_equal; div_lia.
Qed.

Lemma utf8_char_bytes c l : utf8_char c l → Forall (λ b, b < 256) l.
Proof. destruct 1; repeat constructor; lia. Qed.

Lemma utf8_char_valid c l : utf8_char c l → valid_char c = true.
Proof. destruct 1; unfold valid_char; lia. Qed.

Lemma valid_char_utf8 c : valid_char c = true → ∃ l, utf8_char c l.
Proof.
  intros Hc. destruct (utf8_encode_char c) as [l|] eqn:E.
  - exists l. by apply utf8_encode_char_spec.
  - rewrite utf8_encode_char_arith in E. unfold valid_char in Hc.
    repeat case_match; try done; lia.
Qed.

Ltac decoder_tests :=
  repeat match goal with
    | |- context [if ?b then _ else _] =>
        destruct b eqn:?; try (exfalso; div_lia)
    end.

(** The decoder reads the UTF-8 form of a scalar value back. *)
Lemma utf8_decode_char c l r :
  utf8_char c l →
  utf8_decode_from (l ++ r) = cons c <$> utf8_decode_from r.
Proof.
  destruct 1 as [c Hc|x y Hx Hy Hc|x y z Hx Hy Hz Hc Hs|v x y z Hv Hx Hy Hz Hc];
    cbn [app utf8_decode_from].
  - by replace (c <? 128) with true by lia.
  - destruct (byte_tests (192 + x)) as (T2 & _); [lia|].
    destruct (byte_tests (128 + y)) as (_ & _ & _ & Tc); [lia|].
    rewrite T2, Tc, join_two. decoder_tests. do 2 f_equal. div_lia.
  - destruct (byte_tests (224 + x)) as (T2 & T3 & _); [lia|].
    destruct (byte_tests (128 + y)) as (_ & _ & _ & Tc); [lia|].
    destruct (byte_tests (128 + z)) as (_ & _ & _ & Tc'); [lia|].
    rewrite T2, T3, Tc, Tc', join_three. decoder_tests. do 2 f_equal. div_lia.
  - destruct (byte_tests (240 + v)) as (T2 & T3 & T4 & _); [lia|].
    destruct (byte_tests (128 + x)) as (_ & _ & _ & Tc); [lia|].
    destruct (byte_tests (128 + y)) as (_ & _ & _ & Tc'); [lia|].
    destruct (byte_tests (128 + z)) as (_ & _ & _ & Tc''); [lia|].
    rewrite T2, T3, T4, Tc, Tc', Tc'', join_four. decoder_tests.
    do 2 f_equal. div_lia.
Qed.

Ltac decoded_rest IH :=
  match goal with
  | H : cons ?c <$> utf8_decode_from ?r = Some ?s,
    Hr : Forall _ ?r |- _ =>
      let s' := fresh "s" in let E := fresh "E" in
      let ls := fresh "ls" in let Hls := fresh "Hls" in
      let Hcat := fresh "Hcat" in
      destruct (utf8_decode_from r) as [s'|] eqn:E; [|done];
      injection H as <-;
      destruct (IH r) with (s := s') as (ls & Hls & Hcat);
      [simpl; lia | done | done |]
  end.

(** The UTF-8 forms, read from the bytes. *)
Lemma utf8_two_bytes b0 b1 :
  192 ≤ b0 < 224 → 128 ≤ b1 < 192 →
  128 ≤ b0 mod 32 * 64 + b1 mod 64 →
  utf8_char (b0 mod 32 * 64 + b1 mod 64) [b0; b1].
Proof.
  intros H0 H1 Hc. pose proof (utf8_two (b0 mod 32) (b1 mod 64)) as U.
  replace (192 + b0 mod 32) with b0 in U by div_lia.
  replace (128 + b1 mod 64) with b1 in U by div_lia.
  apply U; div_lia.
Qed.

Lemma utf8_three_bytes b0 b1 b2 :
  224 ≤ b0 < 240 → 128 ≤ b1 < 192 → 128 ≤ b2 < 192 →
  2048 ≤ b0 mod 16 * 4096 + b1 mod 64 * 64 + b2 mod 64 →
  ¬ (55296 ≤ b0 mod 16 * 4096 + b1 mod 64 * 64 + b2 mod 64 ≤ 57343) →
  utf8_char (b0 mod 16 * 4096 + b1 mod 64 * 64 + b2 mod 64) [b0; b1; b2].
Proof.
  intros H0 H1 H2 Hc Hs.
  pose proof (utf8_three (b0 mod 16) (b1 mod 64) (b2 mod 64)) as U.
  replace (224 + b0 mod 16) with b0 in U by div_lia.
  replace (128 + b1 mod 64) with b1 in U by div_lia.
  replace (128 + b2 mod 64) with b2 in U by div_lia.
  apply U; div_lia.
Qed.

Lemma utf8_four_bytes b0 b1 b2 b3 :
  240 ≤ b0 < 248 → 128 ≤ b1 < 192 → 128 ≤ b2 < 192 → 128 ≤ b3 < 192 →
  65536 ≤ b0 mod 8 * 262144 + b1 mod 64 * 4096 + b2 mod 64 * 64 + b3 mod 64
    ≤ 1114111 →
  utf8_char (b0 mod 8 * 262144 + b1 mod 64 * 4096 + b2 mod 64 * 64 + b3 mod 64)
    [b0; b1; b2; b3].
Proof.
  intros H0 H1 H2 H3 Hc.
  pose proof (utf8_four (b0 mod 8) (b1 mod 64) (b2 mod 64) (b3 mod 64)) as U.
  replace (240 + b0 mod 8) with b0 in U by div_lia.
  replace (128 + b1 mod 64) with b1 in U by div_lia.
  replace (128 + b2 mod 64) with b2 in U by div_lia.
  replace (128 + b3 mod 64) with b3 in U by div_lia.
  apply U; div_lia.
Qed.

(** Bytes that the decoder accepts are the UTF-8 forms of what it
    returns, one after the other. *)
Lemma utf8_decode_from_chars bs s :
  Forall (λ b, b < 256) bs → utf8_decode_from bs = Some s →
  ∃ ls, Forall2 utf8_char s ls ∧ concat ls = bs.
Proof.
  revert s. induction bs as [bs IH] using str_length_ind. intros s Hbs H.
  destruct bs as [|b0 r0].
  { injection H as <-. by exists []. }
  apply Forall_cons in Hbs as [Hb0 Hr0].
  destruct (byte_tests b0 Hb0) as (T2 & T3 & T4 & _).
  cbn [utf8_decode_from] in H. rewrite T2, T3, T4 in H.
  destruct (b0 <? 128) eqn:E0.
  { decoded_rest IH. exists ([b0] :: ls). split; [|by rewrite <- Hcat].
    constructor; [|done]. apply utf8_one. lia. }
  destruct ((192 <=? b0) && (b0 <? 224)) eqn:E2.
  { destruct r0 as [|b1 r1]; [done|].
    apply Forall_cons in Hr0 as [Hb1 Hr1].
    destruct (byte_tests b1 Hb1) as (_ & _ & _ & Tc).
    rewrite Tc, join_two in H.
    match type of H with (if ?b then _ else _) = _ =>
      destruct b eqn:Ec; [|done] end.
    decoded_rest IH. exists ([b0; b1] :: ls). split; [|by rewrite <- Hcat].
    constructor; [|done].
    apply utf8_two_bytes; lia. }
  destruct ((224 <=? b0) && (b0 <? 240)) eqn:E3.
  { destruct r0 as [|b1 [|b2 r2]]; try done.
    apply Forall_cons in Hr0 as [Hb1 [Hb2 Hr2]%Forall_cons].
    destruct (byte_tests b1 Hb1) as (_ & _ & _ & Tc).
    destruct (byte_tests b2 Hb2) as (_ & _ & _ & Tc').
    rewrite Tc, Tc', join_three in H.
    match type of H with (if ?b then _ else _) = _ =>
      destruct b eqn:Ec; [|done] end.
    decoded_rest IH. exists ([b0; b1; b2] :: ls). split; [|by rewrite <- Hcat].
    constructor; [|done].
    apply utf8_three_bytes; lia. }
  destruct ((240 <=? b0) && (b0 <? 248)) eqn:E4; [|done].
  destruct r0 as [|b1 [|b2 [|b3 r3]]]; try done.
  apply Forall_cons in Hr0 as [Hb1 [Hb2 [Hb3 Hr3]%Forall_cons]%Forall_cons].
  destruct (byte_tests b1 Hb1) as (_ & _ & _ & Tc).
  destruct (byte_tests b2 Hb2) as (_ & _ & _ & Tc').
  destruct (byte_tests b3 Hb3) as (_ & _ & _ & Tc'').
  rewrite Tc, Tc', Tc'', join_four in H.
  match type of H with (if ?b then _ else _) = _ =>
    destruct b eqn:Ec; [|done] end.
  decoded_rest IH. exists ([b0; b1; b2; b3] :: ls). split; [|by rewrite <- Hcat].
  constructor; [|done].
  apply utf8_four_bytes; lia.
Qed.

Lemma utf8_encode_char_decodes c l :
  utf8_encode_char c = Some l → utf8_decode_from l = Some [c].
Proof.
  intros H%utf8_encode_char_spec.
  by rewrite <- (app_nil_r l), (utf8_decode_char c l []).
Qed.

Lemma fmap_cons_app (c : N) (s1 : str) (o : option str) :
  cons c <$> ((s1 ++.) <$> o) = ((c :: s1) ++.) <$> o.
Proof. by destruct o. Qed.

Ltac decode_step IH :=
  match goal with
  | H : cons ?c <$> utf8_decode_from ?r = Some ?s |- _ =>
      let s' := fresh "s" in let E := fresh "E" in
      destruct (utf8_decode_from r) as [s'|] eqn:E; [|done];
      injection H as <-;
      rewrite (IH r) with (s1 := s') by (try done; simpl; lia);
      apply fmap_cons_app
  end.

(** Decoding goes through a concatenation when the first part decodes. *)
Lemma utf8_decode_from_app l1 l2 s1 :
  utf8_decode_from l1 = Some s1 →
  utf8_decode_from (l1 ++ l2) = (s1 ++.) <$> utf8_decode_from l2.
Proof.
  revert s1. induction l1 as [l1 IH] using str_length_ind. intros s1 H.
  destruct l1 as [|b0 r0].
  { injection H as <-. simpl. by destruct (utf8_decode_from l2). }
  cbn [utf8_decode_from app] in *.
  destruct (b0 <? 128); [decode_step IH|].
  destruct (N.land b0 224 =? 192).
  { destruct r0 as [|b1 r1]; [done|]. cbn [app].
    destruct (is_continuation b1 && _); [decode_step IH | done]. }
  destruct (N.land b0 240 =? 224).
  { destruct r0 as [|b1 [|b2 r2]]; try done. cbn [app].
    destruct (is_continuation b1 && _ && _ && _); [decode_step IH | done]. }
  destruct (N.land b0 248 =? 240); [|done].
  destruct r0 as [|b1 [|b2 [|b3 r3]]]; try done. cbn [app].
  destruct (is_continuation b1 && _ && _ && _ && _); [decode_step IH | done].
Qed.

Lemma to_N_of_mapM ns bs :
  mapM Byte.of_N ns = Some bs → map Byte.to_N bs = ns.
Proof.
  intros H%mapM_Some. induction H as [|n b ns bs Hb _ IH]; [done|].
  simpl. by rewrite IH, (Byte.to_of_N _ Hb).
Qed.

Lemma utf8_decode_concat s ns :
  Forall2 (λ c l, utf8_encode_char c = Some l) s ns →
  utf8_decode_from (concat ns) = Some s.
Proof.
  induction 1 as [|c l s ns Hc _ IH]; [done|]. simpl.
  rewrite (utf8_decode_from_app l _ [c]) by by apply utf8_encode_char_decodes.
  by rewrite IH.
Qed.

(** Reading back what was written gives the text that was written. *)
Lemma utf8_decode_encode s bs : utf8_encode s = Some bs → utf8_decode bs = Some s.
Proof.
  unfold utf8_encode, utf8_decode.
  intros (ns & Hns & Hbs)%bind_Some.
  rewrite (to_N_of_mapM _ _ Hbs). by apply utf8_decode_concat, mapM_Some.
Qed.

Lemma not_elem_contains c s : contains [c] s = false → c ∉ s.
Proof. rewrite <- occurs_singleton. apply contains_false. Qed.

Lemma universal_newlines_id s : 13 ∉ s → universal_newlines s = s.
Proof.
  induction s as [|c s IH]; [done|].
  intros [Hc Hs]%not_elem_of_cons. simpl.
  destruct (c =? 13) eqn:E; [by apply N.eqb_eq in E|]. by rewrite IH.
Qed.

Lemma universal_newlines_no_cr s : 13 ∉ universal_newlines s.
Proof.
  induction s as [s IH] using str_length_ind.
  destruct s as [|c t]; simpl; [apply not_elem_of_nil|].
  destruct (c =? 13) eqn:E.
  - apply not_elem_of_cons. split; [done|].
    destruct t as [|c' t']; [apply not_elem_of_nil|].
    destruct (c' =? 10); apply IH; simpl; lia.
  - apply not_elem_of_cons. split; [|apply IH; simpl; lia].
    intros <-. by rewrite N.eqb_refl in E.
Qed.


(** ** The encoder accepts whatever the script writes *)

Lemma lor_below k a b : a < 2 ^ k → b < 2 ^ k → N.lor a b < 2 ^ k.
Proof.
  intros Ha Hb.
  destruct (N.eq_dec a 0) as [->|Ha0]; [by rewrite N.lor_0_l|].
  destruct (N.eq_dec b 0) as [->|Hb0]; [by rewrite N.lor_0_r|].
  assert (N.lor a b ≠ 0) as Hab by (rewrite N.lor_eq_0_iff; tauto).
  apply N.log2_lt_pow2; [lia|]. rewrite N.log2_lor.
  apply N.max_lub_lt; apply N.log2_lt_pow2; lia.
Qed.

Lemma payload_below b : payload b < 64.
Proof. unfold payload. pose proof (N.land_le_r b 63). lia. Qed.

Lemma two_bytes_below b0 b1 :
  N.lor (N.shiftl (N.land b0 0x1F) 6) (payload b1) < 0x800.
Proof.
  apply (lor_below 11).
  - rewrite N.shiftl_mul_pow2. pose proof (N.land_le_r b0 31).
    change (2 ^ 6) with 64. change (2 ^ 11) with 2048. lia.
  - pose proof (payload_below b1). change (2 ^ 11) with 2048. lia.
Qed.

Lemma three_bytes_below b0 b1 b2 :
  N.lor (N.shiftl (N.land b0 0x0F) 12)
    (N.lor (N.shiftl (payload b1) 6) (payload b2)) < 0x10000.
Proof.
  apply (lor_below 16); [|apply (lor_below 16)].
  - rewrite N.shiftl_mul_pow2. pose proof (N.land_le_r b0 15).
    change (2 ^ 12) with 4096. change (2 ^ 16) with 65536. lia.
  - rewrite N.shiftl_mul_pow2. pose proof (payload_below b1).
    change (2 ^ 6) with 64. change (2 ^ 16) with 65536. lia.
  - pose proof (payload_below b2). change (2 ^ 16) with 65536. lia.
Qed.

Ltac valid_step IH :=
  match goal with
  | H : cons ?c <$> utf8_decode_from ?r = Some ?s |- _ =>
      let s' := fresh "s" in let E := fresh "E" in
      destruct (utf8_decode_from r) as [s'|] eqn:E; [|done];
      injection H as <-;
      apply Forall_cons; split; [|apply (IH r); [simpl; lia | done]]
  end.

(** The decoder yields scalar values only. *)
Lemma utf8_decode_from_valid bs s :
  utf8_decode_from bs = Some s → Forall (λ c, valid_char c = true) s.
Proof.
  revert s. induction bs as [bs IH] using str_length_ind. intros s H.
  destruct bs as [|b0 r0].
  { injection H as <-. constructor. }
  cbn [utf8_decode_from] in H. unfold valid_char.
  destruct (b0 <? 128) eqn:E0.
  { valid_step IH. apply N.ltb_lt in E0. 
    apply andb_true_intro. split; [apply N.ltb_lt; lia|].
    apply negb_true_iff, andb_false_intro1, N.leb_gt. lia. }
  destruct (N.land b0 224 =? 192).
  { destruct r0 as [|b1 r1]; [done|].
    destruct (is_continuation b1 && _); [|done]. valid_step IH.
    pose proof (two_bytes_below b0 b1).
    apply andb_true_intro. split; [apply N.ltb_lt; lia|].
    apply negb_true_iff, andb_false_intro1, N.leb_gt. lia. }
  destruct (N.land b0 240 =? 224).
  { destruct r0 as [|b1 [|b2 r2]]; try done.
    destruct (is_continuation b1 && _ && _ && _) eqn:E; [|done].
    valid_step IH. pose proof (three_bytes_below b0 b1 b2).
    apply andb_prop in E as [_ E]. rewrite E, andb_true_r.
    apply N.ltb_lt. lia. }
  destruct (N.land b0 248 =? 240); [|done].
  destruct r0 as [|b1 [|b2 [|b3 r3]]]; try done.
  destruct (is_continuation b1 && _ && _ && _ && _) eqn:E; [|done].
  valid_step IH. apply andb_prop in E as [[_ Hlo]%andb_prop Hhi].
  apply N.leb_le in Hlo, Hhi.
  apply andb_true_intro. split; [apply N.ltb_lt; lia|].
  apply negb_true_iff, andb_false_intro2, N.leb_gt. lia.
Qed.

Lemma utf8_encode_char_valid c :
  valid_char c = true →
  ∃ l, utf8_encode_char c = Some l ∧ Forall (is_Some ∘ Byte.of_N) l.
Proof.
  intros [l Hl]%valid_char_utf8. exists l.
  split; [by apply utf8_encode_char_spec|].
  eapply Forall_impl; [by eapply utf8_char_bytes|].
  intros b Hb. simpl in Hb |- *.
  destruct (Byte.of_N b) eqn:E; [done|]. apply Byte.of_N_None_iff in E. lia.
Qed.

Lemma utf8_encode_total s :
  Forall (λ c, valid_char c = true) s → is_Some (utf8_encode s).
Proof.
  intros H.
  assert (∃ ns, mapM utf8_encode_char s = Some ns
                ∧ Forall (is_Some ∘ Byte.of_N) (concat ns)) as (ns & Hns & Hb).
  { induction H as [|c s Hc _ (ns & Hns & Hb)]; [by exists []|].
    destruct (utf8_encode_char_valid c Hc) as (l & Hl & Hlb).
    exists (l :: ns). simpl. rewrite Hl, Hns. split; [done|].
    by apply Forall_app. }
  unfold utf8_encode. rewrite Hns. simpl. by apply mapM_is_Some_2.
Qed.

Lemma replace_Forall (P : N → Prop) old new s :
  old ≠ [] → Forall P new → Forall P s → Forall P (replace old new s).
Proof.
  intros Ho Hn. induction s as [s IH] using str_length_ind. intros Hs.
  destruct (replace_cases old Ho s) as [->|[(t & -> & Ht)|(a & t & -> & Ha)]].
  - by rewrite replace_nil.
  - rewrite replace_match by done. apply Forall_app. split; [done|].
    apply IH; [done|]. by apply Forall_app in Hs as [_ Hs].
  - rewrite replace_copy by done. apply Forall_cons in Hs as [Hc Hs].
    apply Forall_cons. split; [done|]. apply IH; [simpl; lia | done].
Qed.

Lemma universal_newlines_Forall (P : N → Prop) s :
  P 10 → Forall P s → Forall P (universal_newlines s).
Proof.
  intros H10. induction s as [s IH] using str_length_ind. intros Hs.
  destruct s as [|c t]; simpl; [done|].
  apply Forall_cons in Hs as [Hc Ht].
  destruct (c =? 13).
  - apply Forall_cons. split; [done|].
    destruct t as [|c' t']; [done|]. apply Forall_cons in Ht as [Hc' Ht'].
    destruct (c' =? 10); apply IH; simpl; try lia; by try apply Forall_cons.
  - apply Forall_cons. split; [done|]. apply IH; [simpl; lia | done].
Qed.

Lemma fix_content_Forall (P : N → Prop) s :
  P 32 → Forall P (lit "observations") → Forall P (lit "The code below") →
  Forall P (lit "strength.html") →
  Forall P s → Forall P (fix_content s).
Proof.
  intros H1 H2 H3 H4 Hs. unfold fix_content.
  repeat (apply replace_Forall; [done | try done |]); try done.
  by apply Forall_cons.
Qed.


Lemma not_elem_Forall (c : N) (s : str) : c ∉ s ↔ Forall (λ x, x ≠ c) s.
Proof.
  rewrite Forall_forall. split.
  - by intros H x Hx ->.
  - intros H Hc. by apply (H c).
Qed.

Ltac all_chars :=
  apply Forall_forall;
  let c := fresh "c" in let Hc := fresh "Hc" in
  intros c Hc;
  repeat (apply elem_of_cons in Hc as [->|Hc]; [done|]);
  by apply elem_of_nil in Hc.

Lemma fix_content_no_cr s : 13 ∉ s → 13 ∉ fix_content s.
Proof.
  rewrite !not_elem_Forall. apply fix_content_Forall; [done|..]; all_chars.
Qed.

Lemma fix_content_valid s :
  Forall (λ c, valid_char c = true) s →
  Forall (λ c, valid_char c = true) (fix_content s).
Proof.
  apply fix_content_Forall; [done|..]; all_chars.
Qed.

(** What was decoded from a file can be encoded again after the fixes. *)
Lemma fixed_text_encodes bs text :
  utf8_decode bs = Some text →
  is_Some (utf8_encode (fix_content (universal_newlines text))).
Proof.
  intros Hd. apply utf8_encode_total.
  apply fix_content_valid, universal_newlines_Forall; [done|].
  by apply utf8_decode_from_valid in Hd.
Qed.

(** A second run finds nothing to change: the files stay as the first run
    left them, and the confirmation line is printed once more. *)
Theorem second_run_changes_no_file (w w1 : world) :
  run w = (0, w1) →
  ∃ w2, run w1 = (0, w2) ∧ fs w2 = fs w1 ∧
        stdout w2 = stdout w1 ++ lit "File updated successfully." ++ [10].
Proof.
  intros H%run_exit_0.
  apply script_success_inv in H as (f & text & bs & Hf & _ & _ & Hd & He & ->).
  set (t1 := fix_content (universal_newlines text)) in *.
  assert (universal_newlines t1 = t1) as Hnl.
  { apply universal_newlines_id, fix_content_no_cr, universal_newlines_no_cr. }
  eexists. split.
  - apply run_exit_0. apply (script_success _ (File bs true true) t1 bs); try done.
    + apply lookup_insert_eq.
    + by apply utf8_decode_encode.
    + rewrite Hnl. unfold t1 at 1.
      destruct (fix_content_free (universal_newlines text)) as (?&?&?&?).
      by rewrite fix_content_untouched.
  - simpl. by rewrite insert_insert_eq.
Qed.

(** * More on the run of the script *)

(** The script never fails to encode what it writes: the text came out of
    the strict decoder, the substitutions put in ASCII only, and every such
    text has a UTF-8 form. So whatever exception ends a run, it is not
    [UnicodeEncodeError]. *)
Theorem never_an_encoding_error (w w' : world) (e : exn) :
  script w = (inl e, w') → e ≠ UnicodeEncodeError.
Proof.
  unfold script. rewrite bind_unfold, open_read_unfold.
  destruct (fs w !! PATH) as [f|] eqn:Hf; [|by intros [= <- <-]].
  destruct (readable f) eqn:Hr; [|by intros [= <- <-]].
  rewrite bind_unfold.
  destruct (utf8_decode (data f)) as [text|] eqn:Hd.
  2:{ rewrite (fread_undecodable _ _ f) by done. by intros [= <- <-]. }
  rewrite (fread_ok _ _ f text), bind_unfold by done.
  destruct (writable f) eqn:Hw.
  2:{ rewrite (open_write_denied _ _ f) by done. by intros [= <- <-]. }
  destruct (fixed_text_encodes _ _ Hd) as [bs Hbs].
  rewrite (open_write_ok _ _ f), bind_unfold by done.
  by rewrite (fwrite_ok _ _ (File [] (readable f) true) _ bs);
    [|apply lookup_insert_eq|].
Qed.

Lemma never_an_encoding_error_witness :
  script readonly_world = (inl PermissionError, readonly_world)
  ∧ PermissionError ≠ UnicodeEncodeError.
Proof.
  assert (script readonly_world = (inl PermissionError, readonly_world)) as H
    by (vm_compute; reflexivity).
  split; [exact H|]. exact (never_an_encoding_error _ _ _ H).
Defined.



(** What a successful run has written is valid UTF-8, and reading the file
    again as the script reads it gives the fixed text. *)
Theorem written_text_reads_back (w w' : world) (f : file) (text : str) :
  fs w !! PATH = Some f → utf8_decode (data f) = Some text →
  run w = (0, w') →
  (open_read PATH ≫= fread) w'
  = (inr (fix_content (universal_newlines text)), w').
Proof.
  intros Hf Hd H%run_exit_0.
  apply script_success_inv in H
    as (f' & text' & bs & Hf' & _ & _ & Hd' & He & ->).
  simplify_eq.
  rewrite bind_unfold, open_read_unfold. simpl. rewrite lookup_insert_eq. simpl.
  rewrite (fread_ok _ _ (File bs true true)
             (fix_content (universal_newlines text))).
  - f_equal. f_equal.
    apply universal_newlines_id, fix_content_no_cr, universal_newlines_no_cr.
  - apply lookup_insert_eq.
  - by apply utf8_decode_encode.
Qed.

Lemma written_text_reads_back_witness :
  (open_read PATH ≫= fread) (run sample_world).2
  = (inr (fix_content (universal_newlines [97; 160; 98])),
     (run sample_world).2).
Proof.
  apply (written_text_reads_back sample_world (run sample_world).2
           (File [x61; xc2; xa0; x62]%byte true true)).
  - reflexivity.
  - vm_compute. reflexivity.
  - vm_compute. reflexivity.
Defined.

(** Text mode folds line ends: after a successful run the file holds no
    carriage return, also when there was nothing to fix in it. *)
Theorem run_drops_carriage_returns (w w' : world) :
  run w = (0, w') →
  ∃ f' text',
    fs w' !! PATH = Some f' ∧ utf8_decode (data f') = Some text' ∧ 13 ∉ text'.
Proof.
  intros H%run_exit_0.
  apply script_success_inv in H
    as (f & text & bs & Hf & _ & _ & Hd & He & ->).
  exists (File bs true true), (fix_content (universal_newlines text)).
  split; [apply lookup_insert_eq|]. split; [by apply utf8_decode_encode|].
  apply fix_content_no_cr, universal_newlines_no_cr.
Qed.

Lemma run_drops_carriage_returns_witness :
  ∃ f' text',
    fs (run crlf_world).2 !! PATH = Some f'
    ∧ utf8_decode (data f') = Some text' ∧ 13 ∉ text'.
Proof.
  apply (run_drops_carriage_returns crlf_world). vm_compute. reflexivity.
Defined.

Lemma second_run_changes_no_file_witness :
  ∃ w2, run (run sample_world).2 = (0, w2)
        ∧ fs w2 = fs (run sample_world).2
        ∧ stdout w2
          = stdout (run sample_world).2
            ++ lit "File updated successfully." ++ [10].
Proof.
  apply (second_run_changes_no_file sample_world). vm_compute. reflexivity.
Defined.

(** * Bytes that need no fixing *)

Lemma of_N_to_N_mapM bs : mapM Byte.of_N (map Byte.to_N bs) = Some bs.
Proof.
  apply mapM_Some_2. induction bs as [|b bs IH]; constructor; [|done].
  apply Byte.of_to_N.
Qed.

(** Encoding what was decoded gives the bytes that were decoded. *)
Lemma utf8_encode_decode bs s : utf8_decode bs = Some s → utf8_encode s = Some bs.
Proof.
  unfold utf8_decode, utf8_encode. intros H.
  apply utf8_decode_from_chars in H as (ls & Hls & Hcat).
  - rewrite (mapM_Some_2 utf8_encode_char s ls).
    + simpl. rewrite Hcat. apply of_N_to_N_mapM.
    + eapply Forall2_impl; [done|]. intros c l. apply utf8_encode_char_spec.
  - apply Forall_fmap, Forall_forall. intros b _. simpl.
    pose proof (Byte.to_N_bounded b). lia.
Qed.

(** A file in which there is nothing to fix and no carriage return is
    written back byte for byte. *)
Theorem clean_file_keeps_its_bytes (w w' : world) (f : file) (text : str) :
  fs w !! PATH = Some f → utf8_decode (data f) = Some text →
  13 ∉ text → 160 ∉ text →
  ¬ occurs (lit "obervations") text →
  ¬ occurs (lit "The code bellow") text →
  ¬ occurs (lit "strenght.html") text →
  run w = (0, w') →
  data <$> fs w' !! PATH = Some (data f).
Proof.
  intros Hf Hd Hcr H1 H2 H3 H4 H%run_exit_0.
  apply script_success_inv in H
    as (f' & text' & bs & Hf' & _ & _ & Hd' & He & ->).
  simplify_eq. simpl. rewrite lookup_insert_eq. simpl. f_equal.
  rewrite universal_newlines_id, fix_content_untouched in He; try done.
  - apply utf8_encode_decode in Hd. congruence.
  - unfold NBSP. by rewrite occurs_singleton.
Qed.

Lemma clean_file_keeps_its_bytes_witness :
  data <$> fs (run clean_world).2 !! PATH
  = Some [x78; xe2; x82; xac; x0a]%byte.
Proof.
  apply (clean_file_keeps_its_bytes clean_world _
           (File [x78; xe2; x82; xac; x0a]%byte true true) [120; 8364; 10]).
  - reflexivity.
  - vm_compute. reflexivity.
  - apply not_elem_contains. vm_compute. reflexivity.
  - apply not_elem_contains. vm_compute. reflexivity.
  - apply contains_false. vm_compute. reflexivity.
  - apply contains_false. vm_compute. reflexivity.
  - apply contains_false. vm_compute. reflexivity.
  - vm_compute. reflexivity.
Defined.

(** * More on the transformation of the text *)

(** Replacing one character by one character is a map over the text. *)
Lemma replace_char a b s :
  replace [a] [b] s = map (λ c, if c =? a then b else c) s.
Proof.
  induction s as [|c s IH]; [done|]. simpl map.
  destruct (c =? a) eqn:E.
  - apply N.eqb_eq in E as ->.
    change (a :: s) with ([a] ++ s). rewrite replace_match by done.
    cbn [app]. by rewrite IH.
  - rewrite replace_copy; [by rewrite IH | done |].
    simpl. by rewrite N.eqb_sym, E.
Qed.

(** The first substitution of the script turns each U+00A0 into a space
    where it stands: the text keeps its length and every other character
    its place. *)
Theorem nbsp_step_is_map (s : str) :
  replace NBSP SPACE s = map (λ c, if c =? 160 then 32 else c) s
  ∧ length (replace NBSP SPACE s) = length s.
Proof.
  assert (replace NBSP SPACE s = map (λ c, if c =? 160 then 32 else c) s) as H
    by apply replace_char.
  split; [done|]. by rewrite H, length_map.
Qed.

(** A literal without [c] starts in [w ++ c :: t] only if it starts in [w]. *)
Lemma startswith_across p w c t :
  c ∉ p → startswith p (w ++ c :: t) = startswith p w.
Proof.
  revert w. induction p as [|a p IH]; intros w Hc; [by destruct w|].
  apply not_elem_of_cons in Hc as [Hac Hc].
  destruct w as [|b w]; simpl.
  - destruct (a =? c) eqn:E; [|done]. by apply N.eqb_eq in E.
  - by rewrite IH.
Qed.

(** A substitution works on both sides of a character that its search
    literal does not contain. *)
Lemma replace_split c old new s t :
  old ≠ [] → c ∉ old →
  replace old new (s ++ c :: t) = replace old new s ++ c :: replace old new t.
Proof.
  intros Ho Hc. induction s as [s IH] using str_length_ind.
  destruct (replace_cases old Ho s) as [->|[(s' & -> & Hs)|(a & s' & -> & Ha)]].
  - simpl. rewrite replace_nil by done. rewrite replace_copy; [done | done |].
    change (c :: t) with ([] ++ c :: t).
    rewrite startswith_across by done. by destruct old.
  - rewrite <- app_assoc, !replace_match, IH by done. by rewrite app_assoc.
  - simpl. rewrite (replace_copy old new Ho a (s' ++ c :: t)).
    + rewrite IH by (simpl; lia). by rewrite replace_copy.
    + change (a :: s' ++ c :: t) with ((a :: s') ++ c :: t).
      by rewrite startswith_across.
Qed.

(** The script fixes a text piece by piece: pieces separated by a
    character of no search literal, a line break for one, are fixed each on
    its own. *)
Theorem fix_content_splits_at (c : N) (s t : str) :
  c ∉ search_chars →
  fix_content (s ++ c :: t) = fix_content s ++ c :: fix_content t.
Proof.
  unfold search_chars. rewrite !not_elem_of_app. intros (H1 & H2 & H3 & H4).
  unfold fix_content. by rewrite !replace_split.
Qed.

Lemma fix_content_splits_at_witness :
  fix_content (lit "many obervations" ++ 10 :: lit "The code bellow")
  = fix_content (lit "many obervations") ++ 10 :: fix_content (lit "The code bellow").
Proof.
  apply (fix_content_splits_at 10). apply not_elem_contains.
  vm_compute. reflexivity.
Defined.

Lemma filter_none (keep : N → bool) (l : str) :
  forallb (λ x, negb (keep x)) l = true → List.filter keep l = [].
Proof.
  induction l as [|x l IH]; [done|]. simpl.
  intros [Hx Hl]%andb_prop. apply negb_true_iff in Hx. rewrite Hx. auto.
Qed.

(** Characters of neither literal pass a substitution, in number and
    order. *)
Lemma replace_filter (keep : N → bool) old new s :
  old ≠ [] →
  forallb (λ x, negb (keep x)) old = true →
  forallb (λ x, negb (keep x)) new = true →
  List.filter keep (replace old new s) = List.filter keep s.
Proof.
  intros Ho Hko Hkn. induction s as [s IH] using str_length_ind.
  destruct (replace_cases old Ho s) as [->|[(t & -> & Ht)|(a & t & -> & Ha)]].
  - by rewrite replace_nil.
  - rewrite replace_match by done.
    rewrite !List.filter_app, (filter_none keep new), (filter_none keep old)
      by done.
    by apply IH.
  - rewrite replace_copy by done. simpl. by rewrite IH by (simpl; lia).
Qed.

(** The script leaves alone what its literals do not mention: erase from
    the input and from the output the characters that occur in one of the
    eight literals, and the same text is left. Line breaks, digits and
    non-ASCII letters are as many and in the same order as before. *)
Theorem fix_content_keeps_other_chars (keep : N → bool) (s : str) :
  forallb (λ x, negb (keep x)) literal_chars = true →
  List.filter keep (fix_content s) = List.filter keep s.
Proof.
  unfold literal_chars, search_chars. rewrite !forallb_app, !andb_true_iff.
  intros [(K1 & K2 & K3 & K4) (K5 & K6 & K7 & K8)].
  unfold fix_content. by rewrite !replace_filter.
Qed.

Lemma fix_content_keeps_other_chars_witness :
  List.filter (λ c, c =? 10) (fix_content (lit "obervations" ++ [10; 160; 10]))
  = List.filter (λ c, c =? 10) (lit "obervations" ++ [10; 160; 10]).
Proof.
  apply (fix_content_keeps_other_chars (λ c, c =? 10)). vm_compute. reflexivity.
Defined.

(** The script invents nothing: a character of the output is a character
    of the input or of one of the four replacement literals. *)
Theorem fix_content_chars (c : N) (s : str) :
  c ∈ fix_content s →
  c ∈ s ∨ c ∈ SPACE ++ lit "observations" ++ lit "The code below"
            ++ lit "strength.html".
Proof.
  revert c. apply Forall_forall.
  apply fix_content_Forall.
  - right. by left.
  - apply Forall_forall. intros c Hc. right. rewrite !elem_of_app. auto.
  - apply Forall_forall. intros c Hc. right. rewrite !elem_of_app. auto.
  - apply Forall_forall. intros c Hc. right. rewrite !elem_of_app. auto.
  - apply Forall_forall. intros c Hc. by left.
Qed.

Lemma fix_content_chars_witness :
  115 ∈ lit "obervations"
  ∨ 115 ∈ SPACE ++ lit "observations" ++ lit "The code below"
          ++ lit "strength.html".
Proof.
  apply (fix_content_chars 115 (lit "obervations")).
  vm_compute. repeat constructor.
Defined.

(** For the script a U+00A0 is as good as a space: texts that differ only
    in which of their spaces are non-breaking come out the same. *)
Theorem nbsp_counts_as_space (s t : str) :
  map (λ c, if c =? 160 then 32 else c) s
  = map (λ c, if c =? 160 then 32 else c) t →
  fix_content s = fix_content t.
Proof.
  intros H. unfold fix_content.
  change (replace NBSP SPACE s) with (replace [160] [32] s).
  change (replace NBSP SPACE t) with (replace [160] [32] t).
  by rewrite !replace_char, H.
Qed.

Lemma nbsp_counts_as_space_witness :
  fix_content the_nbsp_code_bellow = fix_content (lit "The code bellow").
Proof.
  apply (nbsp_counts_as_space the_nbsp_code_bellow (lit "The code bellow")).
  vm_compute. reflexivity.
Defined.
